(** * yj: the YAML node tree to JSON value converter (package [yaml])

    A shallow embedding of [yaml/decoder.go] and [yaml/json.go].

    - goyaml nodes live in a heap (a list of [Node] records); a [*goyaml.Node]
      is an address into it and [nil] is address 0, so node identity is
      address identity and alias cycles are ordinary cycles of the heap.
    - Go's [interface{}] is the inductive type [any].
    - [float64] is IEEE 754 binary64 as specified by [SpecFloat]
      (53 bits of precision, [emax = 1024], round to nearest even).
    - Go's [int] is a 64-bit two's complement integer: a [Z] wrapped by
      [wrap64] after each arithmetic operation.
    - A method of [*Decoder] is a function from the Decoder to an [outcome]:
      a normal return, a panic (both carry the Decoder as the method left it)
      or, for the recursive walk, exhaustion of the recursion fuel. *)

From Stdlib Require Import ZArith Floats String Ascii List Lia DecimalString.
From stdpp Require Import gmap strings list.

(** ** Machine numbers *)

Definition wrap64 (z : Z) : Z := ((z + 2 ^ 63) mod 2 ^ 64 - 2 ^ 63)%Z.

Definition in_int64 (z : Z) : Prop := (- 2 ^ 63 <= z < 2 ^ 63)%Z.

Definition float64 := spec_float.

Module f64.
Definition prec : Z := 53.
Definition emax : Z := 1024.
Definition div : float64 -> float64 -> float64 := SFdiv prec emax.
Definition mul : float64 -> float64 -> float64 := SFmul prec emax.
Definition sub : float64 -> float64 -> float64 := SFsub prec emax.
Definition opp : float64 -> float64 := SFopp.
Definition ltb : float64 -> float64 -> bool := SFltb.
(** [float64(i)] for an [int] *)
Definition of_int (i : Z) : float64 := binary_normalize prec emax i 0 false.
End f64.

(** The float64 constants of the source, as the compiler rounds them. *)
#[local] Set Warnings "-inexact-float".
Definition c0_99 : float64 := Eval cbv in Prim2SF 0.99%float.
Definition c0_89 : float64 := Eval cbv in Prim2SF 0.89%float.
Definition c0_10 : float64 := Eval cbv in Prim2SF 0.10%float.

Module math.
Definition MaxFloat64 : float64 := SFmax_float f64.prec f64.emax.
Definition IsNaN (f : float64) : bool :=
  match f with S754_nan => true | _ => false end.
(** [IsInf(f, sign)]: [f] is an infinity of the sign of [sign], of either
    sign when [sign] is 0. *)
Definition IsInf (f : float64) (sign : Z) : bool :=
  match f with
  | S754_infinity neg =>
      ((0 <=? sign)%Z && negb neg) || ((sign <=? 0)%Z && neg)
  | _ => false
  end.
End math.

(** ** Values: Go's [interface{}] *)

Inductive reflectKind :=
  | RInvalid | RBool | RInt | RInt64 | RUint64 | RFloat32 | RFloat64
  | RString | RArray | RMap | RSlice | RPtr | RStruct.

#[local] Set Warnings "-register-all".
Inductive any :=
  | VNil                                   (* the nil interface *)
  | VBool (b : bool)
  | VInt (i : Z)
  | VFloat64 (f : float64)
  | VString (s : string)
  | VPtrFloat64 (p : option float64)       (* a *float64; None is the typed nil pointer *)
  | VSlice (l : list any)                  (* []interface{} *)
  | VMapSlice (m : list (string * any))    (* order.MapSlice *)
  | VOther (type : string) (k : reflectKind) (str : option string).
    (* a value of any other dynamic type, with its reflect.Kind and, when the
       type is a fmt.Stringer (time.Time, say), the result of String() *)

(** ** Errors *)

Inductive error :=
  | InvalidDocument                        (* "invalid document" *)
  | AnchorContainsItself (anchor : string) (* "anchor '%s' value contains itself" *)
  | ErrNotMaps          (* "map merge requires map or sequence of maps as the value" *)
  | ExcessiveAliasing                      (* "document contains excessive aliasing" *)
  | ScalarDecodeError (cause : string)     (* "scalar decode error: %s" *)
  | UnknownKind (k : Z)                    (* "cannot decode node with unknown kind %d" *)
  | UnexpectedType (v : any)               (* "unexpected type: %#v" *)
  | External (msg : string)                (* an error made by a collaborator *)
  | RuntimeError (msg : string).           (* a Go run-time panic *)

Definition nilDereference : error :=
  RuntimeError "invalid memory address or nil pointer dereference".
Definition indexOutOfRange : error := RuntimeError "index out of range".

(** ** Package [order] *)

Module order.

Definition MapItem : Type := string * any.
Definition MapSlice : Type := list MapItem.

Definition has (key : string) (m : MapSlice) : bool :=
  existsb (fun item => String.eqb (fst item) key) m.

(** Modelled from the spec: [order.MapSlice.Merge], whose source file
    (package [order]) is not part of the sources at hand. Section 4.3:
    existing keys win, a merge-supplied key is added only if it is not
    already present, the prior insertion order of the accumulator is
    preserved and new keys are appended in the order in which the merge
    source introduces them. *)
Fixpoint Merge (m other : MapSlice) : MapSlice :=
  match other with
  | [] => m
  | item :: rest =>
      if has (fst item) m then Merge m rest else Merge (m ++ [item]) rest
  end.

End order.

(** ** goyaml nodes *)

Definition ptr := nat.
Definition nil : ptr := 0.

Definition DocumentNode : Z := 1.
Definition SequenceNode : Z := 2.
Definition MappingNode : Z := 4.
Definition ScalarNode : Z := 8.
Definition AliasNode : Z := 16.

Record Node := mkNode {
  Kind : Z;
  Style : Z;
  Tag : string;
  Value : string;
  Anchor : string;
  Alias : ptr;
  Content : list ptr;
  HeadComment : string;
  LineComment : string;
  FootComment : string;
  Line : Z;
  Column : Z
}.

(** The heap of nodes: address [S a] designates cell [a]; [nil] and every
    address beyond the heap designate no node. *)
Definition load (h : list Node) (p : ptr) : option Node :=
  match p with
  | O => None
  | S a => h !! a
  end.

(** [goyaml.Node.IsZero] *)
Definition IsZero (n : Node) : bool :=
  (Kind n =? 0)%Z && (Style n =? 0)%Z && String.eqb (Tag n) ""
  && String.eqb (Value n) "" && String.eqb (Anchor n) ""
  && Nat.eqb (Alias n) nil
  && match Content n with [] => true | _ => false end
  && String.eqb (HeadComment n) "" && String.eqb (LineComment n) ""
  && String.eqb (FootComment n) "" && (Line n =? 0)%Z && (Column n =? 0)%Z.

Definition Reader := list Byte.byte.

(** ** The Decoder *)

Record Decoder := mkDecoder {
  DecodeYAML : Reader -> (list Node * ptr) * option error;
  KeyMarshal : option (any -> list Byte.byte * option error);
  NaN : any;
  PosInf : any;
  NegInf : any;
  aliases : gset ptr;
  doc : ptr;
  decodeCount : Z;
  aliasCount : Z;
  aliasDepth : Z
}.

Definition set_aliases (s : gset ptr) (d : Decoder) : Decoder :=
  mkDecoder (DecodeYAML d) (KeyMarshal d) (NaN d) (PosInf d) (NegInf d)
            s (doc d) (decodeCount d) (aliasCount d) (aliasDepth d).
Definition set_doc (n : ptr) (d : Decoder) : Decoder :=
  mkDecoder (DecodeYAML d) (KeyMarshal d) (NaN d) (PosInf d) (NegInf d)
            (aliases d) n (decodeCount d) (aliasCount d) (aliasDepth d).
Definition set_decodeCount (c : Z) (d : Decoder) : Decoder :=
  mkDecoder (DecodeYAML d) (KeyMarshal d) (NaN d) (PosInf d) (NegInf d)
            (aliases d) (doc d) c (aliasCount d) (aliasDepth d).
Definition set_aliasCount (c : Z) (d : Decoder) : Decoder :=
  mkDecoder (DecodeYAML d) (KeyMarshal d) (NaN d) (PosInf d) (NegInf d)
            (aliases d) (doc d) (decodeCount d) c (aliasDepth d).
Definition set_aliasDepth (c : Z) (d : Decoder) : Decoder :=
  mkDecoder (DecodeYAML d) (KeyMarshal d) (NaN d) (PosInf d) (NegInf d)
            (aliases d) (doc d) (decodeCount d) (aliasCount d) c.

(** ** Outcomes of a method call *)

Inductive outcome (A : Type) :=
  | Ret (a : A) (d : Decoder)
  | Panic (e : error) (d : Decoder)
  | OutOfFuel.
Arguments Ret {A} a d.
Arguments Panic {A} e d.
Arguments OutOfFuel {A}.

Definition M (A : Type) : Type := Decoder -> outcome A.

Definition ret {A} (a : A) : M A := fun d => Ret a d.
Definition panic {A} (e : error) : M A := fun d => Panic e d.
Definition bind {A B} (m : M A) (k : A -> M B) : M B :=
  fun d =>
    match m d with
    | Ret a d' => k a d'
    | Panic e d' => Panic e d'
    | OutOfFuel => OutOfFuel
    end.

Notation "'let*' x ':=' m 'in' k" := (bind m (fun x => k))
  (at level 10, x pattern, m at level 100, k at level 200).

(** ** Package [yaml] *)

Module yaml.

Definition aliasRatioRangeLow : Z := 400000.
Definition aliasRatioRangeHigh : Z := 4000000.
Definition aliasRatioRange : float64 :=
  f64.of_int (aliasRatioRangeHigh - aliasRatioRangeLow).
Definition longTagPrefix : string := "tag:yaml.org,2002:".
Definition mergeTag : string := "!!merge".

(** Each float64 operation is rounded on its own (no fused multiply-add). *)
Definition allowedAliasRatio (decodeCount : Z) : float64 :=
  if (decodeCount <=? aliasRatioRangeLow)%Z then c0_99
  else if (decodeCount >=? aliasRatioRangeHigh)%Z then c0_10
  else
    f64.sub c0_99
      (f64.mul c0_89
         (f64.div (f64.of_int (wrap64 (decodeCount - aliasRatioRangeLow)))
                  aliasRatioRange)).

Definition shortTag (tag : string) : string :=
  if String.prefix longTagPrefix tag
  then String.append "!!"
         (String.substring (String.length longTagPrefix)
            (String.length tag - String.length longTagPrefix) tag)
  else tag.

Definition isMerge (n : Node) : bool :=
  (Kind n =? ScalarNode)%Z && String.eqb (Value n) "<<"
  && (String.eqb (Tag n) "" || String.eqb (Tag n) "!"
      || String.eqb (shortTag (Tag n)) mergeTag).

(** The head of [jsonify]: the two counters ... *)
Definition count (d : Decoder) : Decoder :=
  let d1 := set_decodeCount (wrap64 (decodeCount d + 1)) d in
  if (aliasDepth d1 >? 0)%Z
  then set_aliasCount (wrap64 (aliasCount d1 + 1)) d1
  else d1.

(** ... and the condition of the aliasing check. *)
Definition excessive (d : Decoder) : bool :=
  (aliasCount d >? 100)%Z && (decodeCount d >? 1000)%Z
  && f64.ltb (allowedAliasRatio (decodeCount d))
       (f64.div (f64.of_int (aliasCount d)) (f64.of_int (decodeCount d))).

Definition reflect_Kind (v : any) : reflectKind :=
  match v with
  | VNil => RInvalid
  | VBool _ => RBool
  | VInt _ => RInt
  | VFloat64 _ => RFloat64
  | VString _ => RString
  | VPtrFloat64 _ => RPtr
  | VSlice _ => RSlice
  | VMapSlice _ => RSlice
  | VOther _ k _ => k
  end.

(** [v != nil] for an interface value: a typed nil pointer is not nil. *)
Definition notNil (v : any) : bool :=
  match v with VNil => false | _ => true end.

(** The [String] method of a [fmt.Stringer]; the types of [any] that the
    converter builds itself have none. *)
Definition Stringer (v : any) : option string :=
  match v with VOther _ _ str => str | _ => None end.

Definition jsonifyOther (v : any) : M any :=
  match reflect_Kind v with
  | RMap | RArray | RSlice | RFloat32 => panic (UnexpectedType v)
  | _ => ret v
  end.

Definition jsonifyFloat (d : Decoder) (f : float64) : any :=
  if notNil (NaN d) && math.IsNaN f then NaN d
  else if notNil (PosInf d) && math.IsInf f 1 then PosInf d
  else if notNil (NegInf d) && math.IsInf f (-1) then NegInf d
  else VFloat64 f.

Section Walk.

(** [goyaml.Node.Decode] into an [interface{}], used for scalar nodes. *)
Variable Node_Decode : Node -> any * option string.
Variable h : list Node.

(** [n.f] for a node pointer [n]: a nil dereference panics. *)
Definition deref (n : ptr) : M Node :=
  match load h n with
  | Some nd => ret nd
  | None => panic nilDereference
  end.

Section Methods.

(** The recursive calls [d.jsonify(...)] of the methods below. *)
Variable jsonify : ptr -> M any.

Definition document (n : ptr) (nd : Node) : M any :=
  match Content nd with
  | [c] => fun d => jsonify c (set_doc n d)
  | _ => panic InvalidDocument
  end.

(** The map [d.aliases] is a set of node addresses; a nil map reads as the
    empty set, so that its allocation on first use changes nothing here. *)
Definition alias (n : ptr) (nd : Node) : M any :=
  fun d =>
    if decide (n ∈ aliases d) then Panic (AnchorContainsItself (Value nd)) d
    else
      let d := set_aliases ({[n]} ∪ aliases d) d in
      let d := set_aliasDepth (wrap64 (aliasDepth d + 1)) d in
      match jsonify (Alias nd) d with
      | Ret out d =>
          let d := set_aliasDepth (wrap64 (aliasDepth d - 1)) d in
          let d := set_aliases (aliases d ∖ {[n]}) d in
          Ret out d
      | Panic e d => Panic e d
      | OutOfFuel => OutOfFuel
      end.

Fixpoint sequence_loop (cs : list ptr) (out : list any) : M (list any) :=
  match cs with
  | [] => ret out
  | c :: cs' =>
      let* v := jsonify c in
      sequence_loop cs' (out ++ [v])
  end.

Definition sequence (nd : Node) : M (list any) :=
  sequence_loop (Content nd) [].

Definition jsonifyKey (n : ptr) : M string :=
  let* key := jsonify n in
  match key with
  | VString s => ret s
  | _ =>
      match Stringer key with
      | Some s => ret s
      | None =>
          fun d =>
            match KeyMarshal d with
            | None => Panic nilDereference d
            | Some marshal =>
                match marshal key with
                | (_, Some err) => Panic err d
                | (out, None) => Ret (string_of_list_byte out) d
                end
            end
      end
  end.

(** [in, ok := d.jsonify(n).(order.MapSlice)] followed by the merge *)
Definition mergeInto (m : order.MapSlice) (n : ptr) : M order.MapSlice :=
  let* v := jsonify n in
  match v with
  | VMapSlice i => ret (order.Merge m i)
  | _ => panic ErrNotMaps
  end.

(** The loop of the sequence case of [merge]: [idx] holds the elements
    [n.Content[i]] still to come, in the order of the loop (that is,
    from the last one to the first). *)
Fixpoint merge_loop (n : ptr) (idx : list ptr) (m : order.MapSlice)
  : M order.MapSlice :=
  match idx with
  | [] => ret m
  | ni :: idx' =>
      let* ndi := deref ni in
      let* _ :=
        if (Kind ndi =? AliasNode)%Z then
          if negb (Nat.eqb (Alias ndi) nil) then
            let* t := deref (Alias ndi) in
            if negb (Kind t =? MappingNode)%Z then panic ErrNotMaps
            else ret tt
          else ret tt
        else if negb (Kind ndi =? MappingNode)%Z then panic ErrNotMaps
        else ret tt in
      let* m' := mergeInto m n in
      merge_loop n idx' m'
  end.

Definition merge (m : order.MapSlice) (n : ptr) : M order.MapSlice :=
  let* nd := deref n in
  if (Kind nd =? AliasNode)%Z then
    if negb (Nat.eqb (Alias nd) nil) then
      let* t := deref (Alias nd) in
      if negb (Kind t =? MappingNode)%Z then panic ErrNotMaps
      else mergeInto m n
    else mergeInto m n
  else if (Kind nd =? MappingNode)%Z then mergeInto m n
  else if (Kind nd =? SequenceNode)%Z then merge_loop n (rev (Content nd)) m
  else panic ErrNotMaps.

(** The loop of [mapping] over the pairs of [n.Content]. *)
Fixpoint mapping_loop (cs : list ptr) (out : order.MapSlice)
  : M order.MapSlice :=
  match cs with
  | [] => ret out
  | k :: rest =>
      let* kd := deref k in
      if isMerge kd then
        match rest with
        | [] => panic indexOutOfRange
        | v :: rest' =>
            let* out' := merge out v in
            mapping_loop rest' out'
        end
      else
        let* key := jsonifyKey k in
        match rest with
        | [] => panic indexOutOfRange
        | v :: rest' =>
            let* val := jsonify v in
            mapping_loop rest' (out ++ [(key, val)])
        end
  end.

Definition mapping (nd : Node) : M order.MapSlice :=
  mapping_loop (Content nd) [].

Definition scalar (nd : Node) : M any :=
  match Node_Decode nd with
  | (_, Some err) => panic (ScalarDecodeError err)
  | (VFloat64 f, None) => fun d => Ret (jsonifyFloat d f) d
  | (out, None) => jsonifyOther out
  end.

(** The [switch n.Kind] of [jsonify]. *)
Definition dispatch (n : ptr) : M any :=
  let* nd := deref n in
  if (Kind nd =? DocumentNode)%Z then document n nd
  else if (Kind nd =? AliasNode)%Z then alias n nd
  else if (Kind nd =? ScalarNode)%Z then scalar nd
  else if (Kind nd =? MappingNode)%Z then
    let* m := mapping nd in ret (VMapSlice m)
  else if (Kind nd =? SequenceNode)%Z then
    let* l := sequence nd in ret (VSlice l)
  else if (Kind nd =? 0)%Z && IsZero nd then ret VNil
  else panic (UnknownKind (Kind nd)).

End Methods.

Fixpoint jsonify (fuel : nat) (n : ptr) (d : Decoder) : outcome any :=
  match fuel with
  | O => OutOfFuel
  | S fuel' =>
      let d := count d in
      if excessive d then Panic ExcessiveAliasing d
      else dispatch (jsonify fuel') n d
  end.

End Walk.

(** Modelled from the spec: [catchFailure], which [JSON] defers and whose
    source file is not part of the sources at hand. Section 7: the first
    failure aborts the whole call and is surfaced to the caller as a single
    error value; there is no partial result. *)
Definition catchFailure (o : outcome any) : outcome (any * option error) :=
  match o with
  | Ret v d => Ret (v, None) d
  | Panic e d => Ret (VNil, Some e) d
  | OutOfFuel => OutOfFuel
  end.

(** [d.JSON(r)]: the result pair [(json, err)], with the Decoder as the call
    leaves it. *)
Definition JSON (Node_Decode : Node -> any * option string) (fuel : nat)
  (r : Reader) : M (any * option error) :=
  fun d =>
    match DecodeYAML d r with
    | (_, Some err) => Ret (VNil, Some err) d
    | ((h, node), None) => catchFailure (jsonify Node_Decode h fuel node d)
    end.

Section Unmarshal.

(** The collaborators of [Unmarshal]: [json.Valid], the error of
    [json.Unmarshal] on invalid input, and the goyaml decoder that reads a
    document into a fresh node. *)
Variable json_Valid : list Byte.byte -> bool.
Variable json_Unmarshal : list Byte.byte -> option error.
Variable goyaml_Decode : Reader -> (list Node * ptr) * option error.
Variable Node_Decode : Node -> any * option string.

(** The Decoder literal of [Unmarshal]; the fields it does not name have
    their zero value. *)
Definition unmarshalDecoder : Decoder :=
  {| DecodeYAML := goyaml_Decode;
     KeyMarshal := None;
     NaN := VPtrFloat64 None;
     PosInf := VFloat64 math.MaxFloat64;
     NegInf := VFloat64 (f64.opp math.MaxFloat64);
     aliases := ∅;
     doc := nil;
     decodeCount := 0;
     aliasCount := 0;
     aliasDepth := 0 |}.

(** [j.Unmarshal(src, v)]: [inl out] when [out] has been stored through [v]
    and nil is returned, [inr err] when [err] is returned; [canSet] is
    [reflect.ValueOf(v).Elem().CanSet()]. [None] when the fuel runs out. *)
Definition Unmarshal (fuel : nat) (src : list Byte.byte) (canSet : bool)
  : option (any + error) :=
  if negb (json_Valid src) then
    match json_Unmarshal src with
    | None => Some (inr (External "invalid JSON"))
    | Some err => Some (inr err)
    end
  else
    match JSON Node_Decode fuel src unmarshalDecoder with
    | Ret (_, Some err) _ => Some (inr err)
    | Ret (out, None) _ =>
        if negb canSet then Some (inr (External "cannot set value"))
        else Some (inl out)
    | Panic e _ => Some (inr e)
    | OutOfFuel => None
    end.

End Unmarshal.

End yaml.

(** ** Sample documents *)

Module sample.

(** A stand-in for goyaml's scalar resolution, enough for the documents
    below: it goes by the short tag of the node. *)
Definition Decode (nd : Node) : any * option string :=
  if String.eqb (Tag nd) "!!str" then (VString (Value nd), None)
  else if String.eqb (Tag nd) "!!int" then
    match NilZero.int_of_string (Value nd) with
    | Some i => (VInt (Z.of_int i), None)
    | None => (VNil, Some "cannot decode as an integer")
    end
  else if String.eqb (Tag nd) "!!bool" then
    if String.eqb (Value nd) "true" then (VBool true, None)
    else if String.eqb (Value nd) "false" then (VBool false, None)
    else (VNil, Some "cannot decode as a boolean")
  else if String.eqb (Tag nd) "!!float" then
    if String.eqb (Value nd) ".nan" then (VFloat64 S754_nan, None)
    else if String.eqb (Value nd) ".inf" || String.eqb (Value nd) "1e999"
    then (VFloat64 (S754_infinity false), None)
    else if String.eqb (Value nd) "-.inf" || String.eqb (Value nd) "-1e999"
    then (VFloat64 (S754_infinity true), None)
    else (VNil, Some "cannot decode as a float")
  else if String.eqb (Tag nd) "!!null" then (VNil, None)
  else if String.eqb (Tag nd) "!!timestamp" then
    (VOther "time.Time" RStruct
       (Some (String.append (Value nd) " 00:00:00 +0000 UTC")), None)
  else (VNil, Some "unknown tag").

Definition node (kind : Z) (tag value : string) (target : ptr)
  (content : list ptr) : Node :=
  mkNode kind 0 tag value "" target content "" "" "" 0 0.

Definition scalarNode (tag value : string) : Node :=
  node ScalarNode tag value nil [].
Definition sequenceNode (content : list ptr) : Node :=
  node SequenceNode "!!seq" "" nil content.
Definition mappingNode (content : list ptr) : Node :=
  node MappingNode "!!map" "" nil content.
Definition aliasNode (name : string) (target : ptr) : Node :=
  node AliasNode "" name target [].
Definition documentNode (root : ptr) : Node :=
  node DocumentNode "" "" nil [root].

(** A node with an anchor. *)
Definition anchored (name : string) (nd : Node) : Node :=
  mkNode (Kind nd) (Style nd) (Tag nd) (Value nd) name (Alias nd) (Content nd)
         (HeadComment nd) (LineComment nd) (FootComment nd) (Line nd) (Column nd).

(** A Decoder as a caller would build it: only the exported fields set. *)
Definition decoder (nan posInf negInf : any)
  (keyMarshal : option (any -> list Byte.byte * option error))
  (tree : list Node * ptr) : Decoder :=
  {| DecodeYAML := fun _ => (tree, None);
     KeyMarshal := keyMarshal;
     NaN := nan; PosInf := posInf; NegInf := negInf;
     aliases := ∅; doc := nil;
     decodeCount := 0; aliasCount := 0; aliasDepth := 0 |}.

Definition plain (tree : list Node * ptr) : Decoder :=
  decoder VNil VNil VNil None tree.

(** [{a: 1, <<: {a: 2, b: 3}}]; the document is node 1. *)
Definition merge_map : list Node :=
  [ documentNode 2;
    mappingNode [3; 4; 5; 6];
    scalarNode "!!str" "a"; scalarNode "!!int" "1";
    scalarNode "!!merge" "<<"; mappingNode [7; 8; 9; 10];
    scalarNode "!!str" "a"; scalarNode "!!int" "2";
    scalarNode "!!str" "b"; scalarNode "!!int" "3" ].

(** [{<<: [{x: 1}, {x: 2, y: 3}]}]; the document is node 1, the merge value
    node 4. *)
Definition merge_seq : list Node :=
  [ documentNode 2;
    mappingNode [3; 4];
    scalarNode "!!merge" "<<"; sequenceNode [5; 8];
    mappingNode [6; 7];
    scalarNode "!!str" "x"; scalarNode "!!int" "1";
    mappingNode [9; 10; 11; 12];
    scalarNode "!!str" "x"; scalarNode "!!int" "2";
    scalarNode "!!str" "y"; scalarNode "!!int" "3" ].

(** [{base: &b {a: 1, z: 9}, derived: {a: 0, <<: *b, c: 2}}]; the alias is
    node 14. *)
Definition merge_alias : list Node :=
  [ documentNode 2;
    mappingNode [3; 4; 9; 10];
    scalarNode "!!str" "base"; anchored "b" (mappingNode [5; 6; 7; 8]);
    scalarNode "!!str" "a"; scalarNode "!!int" "1";
    scalarNode "!!str" "z"; scalarNode "!!int" "9";
    scalarNode "!!str" "derived"; mappingNode [11; 12; 13; 14; 15; 16];
    scalarNode "!!str" "a"; scalarNode "!!int" "0";
    scalarNode "!!merge" "<<"; aliasNode "b" 4;
    scalarNode "!!str" "c"; scalarNode "!!int" "2" ].

(** [{<<: []}]; the merge value is node 4. *)
Definition merge_empty : list Node :=
  [ documentNode 2;
    mappingNode [3; 4];
    scalarNode "!!merge" "<<"; sequenceNode [] ].

(** [&a [*a]]: the sequence (node 2) holds an alias (node 3) to itself. *)
Definition cycle : list Node :=
  [ documentNode 2;
    anchored "a" (sequenceNode [3]);
    aliasNode "a" 2 ].

(** [&a [{<<: 5}, *a]]: the same cycle, behind a merge of a scalar. *)
Definition cycle_late : list Node :=
  [ documentNode 2;
    anchored "a" (sequenceNode [3; 6]);
    mappingNode [4; 5];
    scalarNode "!!merge" "<<"; scalarNode "!!int" "5";
    aliasNode "a" 2 ].

(** [[&a x, *a]]: the alias is node 4 and its target node 3. *)
Definition aliased_scalar : list Node :=
  [ documentNode 2;
    sequenceNode [3; 4];
    anchored "a" (scalarNode "!!str" "x");
    aliasNode "a" 3 ].

(** [[1e999, -1e999]], as goyaml reads this JSON text: two floats out of the
    range of float64. *)
Definition huge_floats : list Node :=
  [ documentNode 2;
    sequenceNode [3; 4];
    scalarNode "!!float" "1e999"; scalarNode "!!float" "-1e999" ].

(** [[x, x, ..., x]] with [k] elements: nodes 3 to [k + 2]. *)
Definition plain_seq (k : nat) : list Node :=
  documentNode 2 :: sequenceNode (seq 3 k) :: repeat (scalarNode "!!str" "x") k.

(** A document whose root is an alias (node 2) to a sequence of [k] strings
    (node 3) that is not otherwise part of the tree. *)
Definition aliased_seq (k : nat) : list Node :=
  documentNode 2 :: aliasNode "a" 3 :: sequenceNode (seq 4 k)
    :: repeat (scalarNode "!!str" "x") k.

Definition cyclic_text : string := "&a [*a]".
Definition plain_text : string :=
  String.append "[" (String.append (String.concat ", " (repeat "x" 1000)) "]").

(** A stand-in for the YAML parser, for these two texts. *)
Definition parse (r : Reader) : (list Node * ptr) * option error :=
  if String.eqb (string_of_list_byte r) cyclic_text then ((cycle, 1), None)
  else if String.eqb (string_of_list_byte r) plain_text
  then ((plain_seq 1000, 1), None)
  else (([], nil), Some (External "yaml: document not known to the stand-in")).

(** A Decoder, freshly made, that reads its input with [parse]. *)
Definition parsing : Decoder :=
  {| DecodeYAML := parse;
     KeyMarshal := None;
     NaN := VNil; PosInf := VNil; NegInf := VNil;
     aliases := ∅; doc := nil;
     decodeCount := 0; aliasCount := 0; aliasDepth := 0 |}.

(** The error of a call of [JSON] made on the Decoder that an earlier
    outcome has left. *)
Definition error_after {A} (first : outcome A)
  (second : Decoder -> outcome (any * option error)) : option (option error) :=
  match first with
  | Ret _ d | Panic _ d =>
      match second d with
      | Ret (_, err) _ => Some err
      | _ => None
      end
  | OutOfFuel => None
  end.


(** [{b: 1, a: 2}]; the mapping is node 2. *)
Definition two_keys : list Node :=
  [ documentNode 2;
    mappingNode [3; 4; 5; 6];
    scalarNode "!!str" "b"; scalarNode "!!int" "1";
    scalarNode "!!str" "a"; scalarNode "!!int" "2" ].

(** A mapping node with a key and no value, as no parser builds it. *)
Definition lone_key : list Node :=
  [ mappingNode [2]; scalarNode "!!str" "a" ].


End sample.

(** A value holds no raw NaN and no raw infinity. *)
Fixpoint finite_floats (v : any) : bool :=
  match v with
  | VFloat64 f => negb (math.IsNaN f) && negb (math.IsInf f 0)
  | VSlice l => forallb finite_floats l
  | VMapSlice m => forallb (fun item => let '(_, x) := item in finite_floats x) m
  | _ => true
  end.

(** ** Observations on outcomes *)

Definition returned {A} (o : outcome A) : option A :=
  match o with Ret a _ => Some a | _ => None end.

Definition panicked {A} (o : outcome A) : option error :=
  match o with Panic e _ => Some e | _ => None end.

Definition final {A} (o : outcome A) : option Decoder :=
  match o with Ret _ d | Panic _ d => Some d | OutOfFuel => None end.


(** ** The calls of the walk

    [calls h nd] lists the nodes that the conversion of [nd] hands to
    [jsonify] and whose conversion must return for that of [nd] to return.
    The key of a merge entry is not converted; its value is, unless it is a
    sequence without elements. *)

Definition merge_calls (h : list Node) (v : ptr) : list ptr :=
  match load h v with
  | Some vd =>
      if (Kind vd =? SequenceNode)%Z && Nat.eqb (length (Content vd)) 0
      then [] else [v]
  | None => []
  end.

Fixpoint mapping_calls (h : list Node) (cs : list ptr) : list ptr :=
  match cs with
  | k :: v :: rest =>
      match load h k with
      | Some kd =>
          (if yaml.isMerge kd then merge_calls h v else [k; v])
            ++ mapping_calls h rest
      | None => []
      end
  | _ => []
  end.

Definition calls (h : list Node) (nd : Node) : list ptr :=
  if (Kind nd =? DocumentNode)%Z then
    match Content nd with [c] => [c] | _ => [] end
  else if (Kind nd =? AliasNode)%Z then [Alias nd]
  else if (Kind nd =? ScalarNode)%Z then []
  else if (Kind nd =? MappingNode)%Z then mapping_calls h (Content nd)
  else if (Kind nd =? SequenceNode)%Z then Content nd
  else [].

(** [visits h n c]: the conversion of node [n] converts node [c]. *)
Definition visits (h : list Node) (n c : ptr) : Prop :=
  exists nd, load h n = Some nd /\ c ∈ calls h nd.

(** ** Vocabulary of the properties *)

(** [post o Q E F]: a normal return satisfies [Q], a panic satisfies [E], and
    running out of fuel is allowed only if [F] holds. *)
Definition post {A} (o : outcome A) (Q : A -> Decoder -> Prop)
  (E : error -> Decoder -> Prop) (F : Prop) : Prop :=
  match o with
  | Ret a d => Q a d
  | Panic e d => E e d
  | OutOfFuel => F
  end.

(** The outcome is not a normal return. *)
Definition noret {A} (o : outcome A) : Prop :=
  post o (fun _ _ => False) (fun _ _ => True) True.

(** The exported fields: the configuration of the Decoder. *)
Definition same_config (d d' : Decoder) : Prop :=
  DecodeYAML d' = DecodeYAML d /\ KeyMarshal d' = KeyMarshal d /\
  NaN d' = NaN d /\ PosInf d' = PosInf d /\ NegInf d' = NegInf d.

(** The sentinels that [Unmarshal] configures. *)
Definition unmarshal_config (d : Decoder) : Prop :=
  NaN d = VPtrFloat64 None /\
  PosInf d = VFloat64 math.MaxFloat64 /\
  NegInf d = VFloat64 (f64.opp math.MaxFloat64).

(** The addresses of the heap. *)
Definition dom_set (h : list Node) : gset ptr := list_to_set (seq 1 (length h)).

(** With [N] units of fuel or more, the conversion of [n] entered with the
    in-progress set [S] does not run out of fuel, and gives [S] back when it
    returns. *)
Definition settles (Node_Decode : Node -> any * option string) (h : list Node)
  (S : gset ptr) (n : ptr) (N : nat) : Prop :=
  forall fuel, N <= fuel -> forall d, aliases d = S ->
    post (yaml.jsonify Node_Decode h fuel n d)
         (fun _ d' => aliases d' = S) (fun _ _ => True) False.

(** The conversion of [n] cannot return from a Decoder that satisfies [I]. *)
Definition doomed (Node_Decode : Node -> any * option string) (h : list Node)
  (I : Decoder -> Prop) (n : ptr) : Prop :=
  forall fuel d, I d -> noret (yaml.jsonify Node_Decode h fuel n d).

(** [extends o o']: [o'] is the outcome [o], unless [o] ran out of fuel. *)
Definition extends {A} (o o' : outcome A) : Prop :=
  o <> OutOfFuel -> o' = o.


(** * Properties *)

Module yaml_facts.
Import yaml.
#[local] Set Warnings "-clear-no-such-hyp".

(** ** Machine integers *)

Lemma wrap64_id (z : Z) : in_int64 z -> wrap64 z = z.
Proof.
  unfold in_int64, wrap64. intros Hz.
  rewrite Z.mod_small; lia.
Qed.

Lemma wrap64_range (z : Z) : in_int64 (wrap64 z).
Proof.
  unfold in_int64, wrap64.
  pose proof (Z.mod_pos_bound (z + 2 ^ 63) (2 ^ 64) ltac:(lia)). lia.
Qed.

Lemma wrap64_succ_pred (z : Z) : in_int64 z -> wrap64 (wrap64 (z + 1) - 1) = z.
Proof.
  intros Hz. destruct (Z.eq_dec z (2 ^ 63 - 1)%Z) as [-> | Hne].
  - reflexivity.
  - rewrite (wrap64_id (z + 1)) by (unfold in_int64 in *; lia).
    replace (z + 1 - 1)%Z with z by lia. now apply wrap64_id.
Qed.

(** ** The scalar normalizer *)

(** C7: a non-finite float is replaced by the sentinel configured for its
    case (NaN, positive infinity, negative infinity); when no sentinel is
    configured for the case the raw float is returned unchanged; a finite
    float is always returned unchanged. *)
Theorem jsonifyFloat_sentinels (d : Decoder) (f : float64) :
  (math.IsNaN f = true -> NaN d <> VNil -> jsonifyFloat d f = NaN d) /\
  (math.IsInf f 1 = true -> PosInf d <> VNil -> jsonifyFloat d f = PosInf d) /\
  (math.IsInf f (-1) = true -> NegInf d <> VNil -> jsonifyFloat d f = NegInf d) /\
  (math.IsNaN f = true -> NaN d = VNil -> jsonifyFloat d f = VFloat64 f) /\
  (math.IsInf f 1 = true -> PosInf d = VNil -> jsonifyFloat d f = VFloat64 f) /\
  (math.IsInf f (-1) = true -> NegInf d = VNil -> jsonifyFloat d f = VFloat64 f) /\
  (math.IsNaN f = false -> math.IsInf f 0 = false -> jsonifyFloat d f = VFloat64 f).
Proof.
  unfold jsonifyFloat.
  repeat split; intros Hf;
    destruct f as [s | [|] | | s m e]; try discriminate Hf; cbn;
    destruct (NaN d), (PosInf d), (NegInf d); cbn; congruence.
Qed.

(** ** Map keys *)

Section Keys.
Variable jsonify : ptr -> M any.

(** C8, as amended: a string key is used directly; a key that is a
    [fmt.Stringer] is rendered by its own [String] method and [KeyMarshal]
    plays no part; only for the remaining keys is [KeyMarshal] called, and its
    result (or its error) becomes the key (or the failure). *)
Theorem jsonifyKey_routes (n : ptr) (d d' : Decoder) (key : any) :
  jsonify n d = Ret key d' ->
  (forall s, key = VString s -> jsonifyKey jsonify n d = Ret s d') /\
  (forall s, Stringer key = Some s -> jsonifyKey jsonify n d = Ret s d') /\
  ((forall s, key <> VString s) -> Stringer key = None ->
   forall marshal, KeyMarshal d' = Some marshal ->
     jsonifyKey jsonify n d =
       match marshal key with
       | (_, Some err) => Panic err d'
       | (out, None) => Ret (string_of_list_byte out) d'
       end).
Proof.
  intros Hkey. unfold jsonifyKey, bind. rewrite Hkey.
  split; [| split].
  - intros s ->. reflexivity.
  - intros s Hs. destruct key; cbn in Hs; try discriminate Hs.
    rewrite Hs. reflexivity.
  - intros Hns Hstr marshal Hm.
    destruct key; try (exfalso; eapply Hns; reflexivity);
      rewrite ?Hstr; cbn; rewrite Hm; reflexivity.
Qed.

End Keys.

(** The boolean key [true] and a [KeyMarshal] that renders it as [true]. *)
Lemma jsonifyKey_routes_witness :
  let key := VBool true in
  let marshal := fun _ : any => (list_byte_of_string "true", @None error) in
  let d := sample.decoder VNil VNil VNil (Some marshal) ([], nil) in
  let jsonify := fun (_ : ptr) (d : Decoder) => Ret key d in
  jsonify 1 d = Ret key d /\
  jsonifyKey jsonify 1 d = Ret "true" d.
Proof.
  intros key marshal d jsonify. split; [reflexivity |].
  destruct (jsonifyKey_routes jsonify 1 d d key eq_refl) as (_ & _ & H).
  exact (H ltac:(intros s; discriminate) eq_refl marshal eq_refl).
Defined.

(** C8 fails as stated: a key that is not a string does not always go
    through [KeyMarshal]. The key of [{2001-12-14: x}] is decoded as a
    [time.Time], which is a [fmt.Stringer]: its [String] method gives the map
    key, and what [KeyMarshal] makes of the key is not used. *)
Lemma jsonifyKey_not_always_marshalled :
  let h := [sample.scalarNode "!!timestamp" "2001-12-14"] in
  let marshal := fun _ : any => (list_byte_of_string "marshalled", @None error) in
  let d := sample.decoder VNil VNil VNil (Some marshal) (h, 1) in
  let key := VOther "time.Time" RStruct (Some "2001-12-14 00:00:00 +0000 UTC") in
  returned (jsonify sample.Decode h 1 1 d) = Some key /\
  (forall s, key <> VString s) /\
  marshal key = (list_byte_of_string "marshalled", None) /\
  returned (jsonifyKey (jsonify sample.Decode h 1) 1 d)
    = Some "2001-12-14 00:00:00 +0000 UTC".
Proof.
  cbv zeta. split; [reflexivity |]. split; [intros s; discriminate |].
  split; reflexivity.
Qed.

(** ** The merge resolver *)

Section Merge.
Variable h : list Node.
Variable jsonify : ptr -> M any.

(** C9: resolving a merge key whose value is a sequence node with no
    elements returns the accumulator unchanged and does not fail; the
    Decoder is left as it was. *)
Theorem merge_empty_sequence (m : order.MapSlice) (n : ptr) (nd : Node) (d : Decoder) :
  load h n = Some nd ->
  Kind nd = SequenceNode ->
  Content nd = [] ->
  merge h jsonify m n d = Ret m d.
Proof.
  intros Hn Hk Hc. unfold merge, bind, deref.
  rewrite Hn. cbn. rewrite Hk, Hc. reflexivity.
Qed.

End Merge.

(** The merge value of [{<<: []}], merged into [{a: 1}]. *)
Lemma merge_empty_sequence_witness :
  let h := sample.merge_empty in
  let d := sample.plain (h, 1) in
  let m := [("a", VInt 1)] in
  let nd := sample.sequenceNode [] in
  load h 4 = Some nd /\ Kind nd = SequenceNode /\ Content nd = [] /\
  merge h (jsonify sample.Decode h 3) m 4 d = Ret m d.
Proof.
  intros h d m nd. do 3 (split; [reflexivity |]).
  apply (merge_empty_sequence h _ m 4 nd d); reflexivity.
Defined.


(** ** The alias guard *)

Lemma count_decodeCount (d : Decoder) :
  decodeCount (count d) = wrap64 (decodeCount d + 1).
Proof. unfold count. cbn. destruct (aliasDepth d >? 0)%Z; reflexivity. Qed.

Lemma count_aliasCount (d : Decoder) :
  aliasCount (count d) =
    if (aliasDepth d >? 0)%Z then wrap64 (aliasCount d + 1) else aliasCount d.
Proof. unfold count. cbn. destruct (aliasDepth d >? 0)%Z; reflexivity. Qed.

Lemma count_aliases (d : Decoder) : aliases (count d) = aliases d.
Proof. unfold count. cbn. destruct (aliasDepth d >? 0)%Z; reflexivity. Qed.

Lemma count_aliasDepth (d : Decoder) : aliasDepth (count d) = aliasDepth d.
Proof. unfold count. cbn. destruct (aliasDepth d >? 0)%Z; reflexivity. Qed.

Lemma jsonify_S Node_Decode h fuel n d :
  jsonify Node_Decode h (S fuel) n d =
    if excessive (count d) then Panic ExcessiveAliasing (count d)
    else dispatch Node_Decode h (jsonify Node_Decode h fuel) n (count d).
Proof. reflexivity. Qed.

(** C2: every node visit first increments the total counter and, when the
    alias-nesting depth is above zero, the alias counter; it then fails with
    the excessive-aliasing error exactly when the alias counter exceeds 100,
    the total counter exceeds 1000 and the float64 quotient of the two exceeds
    the allowed ratio, and otherwise goes on to the switch on the node kind.
    The allowed ratio is 0.99 up to 400,000 decodes, 0.10 from 4,000,000 on,
    and [0.99 - 0.89 * ((total - 400000) / 3600000)] in between, computed in
    float64. *)
Theorem jsonify_excessive_aliasing Node_Decode h fuel n d :
  let d1 := count d in
  let ratio := f64.div (f64.of_int (aliasCount d1)) (f64.of_int (decodeCount d1)) in
  decodeCount d1 = wrap64 (decodeCount d + 1) /\
  aliasCount d1
    = (if (aliasDepth d >? 0)%Z then wrap64 (aliasCount d + 1) else aliasCount d) /\
  (excessive d1 = true <->
     (aliasCount d1 > 100)%Z /\ (decodeCount d1 > 1000)%Z /\
     f64.ltb (allowedAliasRatio (decodeCount d1)) ratio = true) /\
  (excessive d1 = true ->
     jsonify Node_Decode h (S fuel) n d = Panic ExcessiveAliasing d1) /\
  (excessive d1 = false ->
     jsonify Node_Decode h (S fuel) n d
     = dispatch Node_Decode h (jsonify Node_Decode h fuel) n d1) /\
  (forall total, (total <= 400000)%Z -> allowedAliasRatio total = c0_99) /\
  (forall total, (total >= 4000000)%Z -> allowedAliasRatio total = c0_10) /\
  (forall total, (400000 < total < 4000000)%Z ->
     allowedAliasRatio total
     = f64.sub c0_99
         (f64.mul c0_89
            (f64.div (f64.of_int (total - 400000)) (f64.of_int 3600000)))).
Proof.
  cbv zeta. repeat apply conj.
  - apply count_decodeCount.
  - apply count_aliasCount.
  - unfold excessive. rewrite !andb_true_iff, !Z.gtb_lt. intuition lia.
  - unfold excessive. rewrite !andb_true_iff, !Z.gtb_lt. intuition lia.
  - intros He. rewrite jsonify_S, He. reflexivity.
  - intros He. rewrite jsonify_S, He. reflexivity.
  - intros total Ht. unfold allowedAliasRatio, aliasRatioRangeLow.
    destruct (Z.leb_spec total 400000); [reflexivity | lia].
  - intros total Ht. unfold allowedAliasRatio, aliasRatioRangeLow, aliasRatioRangeHigh.
    destruct (Z.leb_spec total 400000); [lia |].
    destruct (Z.geb_spec total 4000000); [reflexivity | lia].
  - intros total Ht.
    unfold allowedAliasRatio, aliasRatioRange, aliasRatioRangeLow, aliasRatioRangeHigh.
    destruct (Z.leb_spec total 400000); [lia |].
    destruct (Z.geb_spec total 4000000); [lia |].
    rewrite wrap64_id by (unfold in_int64; lia). reflexivity.
Qed.

(** The guard at work. Up to 400,000 decodes the allowed ratio is 0.99: 1980
    alias-driven decodes out of 2000 are 99% and pass, 1981 do not; below
    either floor nothing is checked. At 4,000,000 decodes the allowed ratio
    is 0.10. The comparison is one of float64 values: at 2,200,000 decodes
    the allowed ratio is computed as 0.54499999999999993 and the quotient
    1199000 / 2200000 as 0.54500000000000004, so that 1,199,000 alias-driven
    decodes are already too many. *)
Example excessive_examples :
  let at_counts := fun aliased total : Z =>
    excessive (set_aliasCount aliased (set_decodeCount total (sample.plain ([], nil)))) in
  (at_counts 1980 2000 = false /\ at_counts 1981 2000 = true /\
   at_counts 1000 1000 = false /\ at_counts 100 1001 = false /\
   at_counts 400000 4000000 = false /\ at_counts 400001 4000000 = true /\
   at_counts 1198999 2200000 = false /\ at_counts 1199000 2200000 = true)%Z.
Proof. repeat split; vm_compute; reflexivity. Qed.


(** ** [order.MapSlice.Merge] *)

Lemma has_app key (m1 m2 : order.MapSlice) :
  order.has key (m1 ++ m2) = order.has key m1 || order.has key m2.
Proof. unfold order.has. apply existsb_app. Qed.

Lemma has_elem (item : order.MapItem) (m : order.MapSlice) :
  item ∈ m -> order.has (fst item) m = true.
Proof.
  intros Hin. unfold order.has. apply existsb_exists.
  exists item. split; [now apply list_elem_of_In | apply String.eqb_refl].
Qed.

Lemma Merge_spec (other m : order.MapSlice) :
  exists added,
    order.Merge m other = m ++ added /\
    (forall item, item ∈ added -> item ∈ other /\ order.has (fst item) m = false) /\
    (forall item, item ∈ other -> order.has (fst item) (m ++ added) = true).
Proof.
  revert m. induction other as [| item rest IH]; intros m; cbn [order.Merge].
  - exists []. rewrite app_nil_r. split; [reflexivity |].
    split; intros it Hit; inversion Hit.
  - destruct (order.has (fst item) m) eqn:Hhas.
    + destruct (IH m) as (added & -> & Hnew & Hall).
      exists added. split; [reflexivity |]. split.
      * intros it Hit. destruct (Hnew it Hit) as [Hin Hm].
        split; [now apply list_elem_of_further | exact Hm].
      * intros it Hit. apply elem_of_cons in Hit as [-> | Hit].
        -- rewrite has_app, Hhas. reflexivity.
        -- now apply Hall.
    + destruct (IH (m ++ [item])) as (added & -> & Hnew & Hall).
      exists (item :: added). rewrite <- app_assoc. split; [reflexivity |]. split.
      * intros it Hit. apply elem_of_cons in Hit as [-> | Hit].
        -- split; [apply list_elem_of_here | exact Hhas].
        -- destruct (Hnew it Hit) as [Hin Hm].
           split; [now apply list_elem_of_further |].
           rewrite has_app in Hm. now apply orb_false_iff in Hm as [Hm _].
      * intros it Hit. apply elem_of_cons in Hit as [-> | Hit].
        -- rewrite has_app. apply orb_true_iff. right.
           apply has_elem, list_elem_of_here.
        -- specialize (Hall it Hit). now rewrite <- app_assoc in Hall.
Qed.

Section MergeOne.
Variable h : list Node.
Variable jsonify : ptr -> M any.

(** C6: when the value of a merge key is a single mapping, or an alias to
    one, and converts to the map [src], the merge keeps every entry of the
    accumulator, with its value and in its place, and appends entries of
    [src] only: those whose key the accumulator does not have. Every key of
    [src] is in the result. *)
Theorem merge_single_mapping (m src : order.MapSlice) (n : ptr) (nd : Node)
    (d d' : Decoder) :
  load h n = Some nd ->
  Kind nd = MappingNode \/
    (Kind nd = AliasNode /\
     exists t, load h (Alias nd) = Some t /\ Kind t = MappingNode) ->
  jsonify n d = Ret (VMapSlice src) d' ->
  exists added,
    merge h jsonify m n d = Ret (m ++ added) d' /\
    (forall item, item ∈ added -> item ∈ src /\ order.has (fst item) m = false) /\
    (forall item, item ∈ src -> order.has (fst item) (m ++ added) = true).
Proof.
  intros Hn Hkind Hconv.
  destruct (Merge_spec src m) as (added & Hm & Hnew & Hall).
  exists added. split; [| split; assumption].
  assert (Hinto : mergeInto jsonify m n d = Ret (m ++ added) d').
  { unfold mergeInto, bind. rewrite Hconv, Hm. reflexivity. }
  unfold merge, bind, deref. rewrite Hn. cbn.
  destruct Hkind as [Hk | (Hk & t & Ht & Hkt)]; rewrite Hk; cbn.
  - exact Hinto.
  - destruct (Alias nd) as [| a] eqn:Ha; [discriminate Ht |]. cbn.
    change (load h (S a)) with (h !! a) in Ht. unfold ptr in *.
    rewrite Ht. cbn. rewrite Hkt. cbn. exact Hinto.
Qed.

End MergeOne.


(** The merge of [{a: 1, <<: {a: 2, b: 3}}], at the point where the
    accumulator holds [a: 1]: node 6 is the source map. *)
Lemma merge_single_mapping_witness :
  let h := sample.merge_map in
  let d := set_decodeCount 4 (sample.plain (h, 1)) in
  let d' := set_decodeCount 9 (sample.plain (h, 1)) in
  let m := [("a", VInt 1)] in
  let src := [("a", VInt 2); ("b", VInt 3)] in
  let nd := sample.mappingNode [7; 8; 9; 10] in
  load h 6 = Some nd /\ Kind nd = MappingNode /\
  jsonify sample.Decode h 2 6 d = Ret (VMapSlice src) d' /\
  exists added,
    merge h (jsonify sample.Decode h 2) m 6 d = Ret (m ++ added) d' /\
    (forall item, item ∈ added -> item ∈ src /\ order.has (fst item) m = false) /\
    (forall item, item ∈ src -> order.has (fst item) (m ++ added) = true).
Proof.
  intros h d d' m src nd. do 3 (split; [reflexivity |]).
  apply (merge_single_mapping h _ m src 6 nd d d').
  - reflexivity.
  - left. reflexivity.
  - reflexivity.
Defined.

(** The document of the specification: explicit [a: 1] merged with
    [{a: 2, b: 3}] gives [{a: 1, b: 3}]. *)
Example merge_map_converts :
  returned (jsonify sample.Decode sample.merge_map 4 1
              (sample.plain (sample.merge_map, 1)))
  = Some (VMapSlice [("a", VInt 1); ("b", VInt 3)]).
Proof. reflexivity. Qed.

(** The same through an alias: in
    [{base: &b {a: 1, z: 9}, derived: {a: 0, <<: *b, c: 2}}] the explicit
    [a: 0] of [derived] wins over the [a: 1] of [base], and [z: 9] is added
    where the merge key stands. *)
Example merge_alias_converts :
  returned (jsonify sample.Decode sample.merge_alias 6 1
              (sample.plain (sample.merge_alias, 1)))
  = Some (VMapSlice
            [("base", VMapSlice [("a", VInt 1); ("z", VInt 9)]);
             ("derived", VMapSlice [("a", VInt 0); ("z", VInt 9); ("c", VInt 2)])]).
Proof. reflexivity. Qed.

(** ** The sequence form of the merge *)

Section MergeSequence.
Variable Node_Decode : Node -> any * option string.
Variable h : list Node.

Lemma jsonify_sequence_value fuel n nd d v d' :
  load h n = Some nd ->
  Kind nd = SequenceNode ->
  jsonify Node_Decode h fuel n d = Ret v d' ->
  exists l, v = VSlice l.
Proof.
  intros Hn Hk. destruct fuel as [| fuel]; [discriminate |].
  rewrite jsonify_S. destruct (excessive (count d)); [discriminate |].
  unfold dispatch, bind, deref. rewrite Hn. cbn. rewrite Hk. cbn.
  destruct (sequence _ nd (count d)) as [l d1 | e d1 |]; try discriminate.
  intros [= <- <-]. now exists l.
Qed.

(** The sequence case of [merge] converts the sequence node itself where it
    means its element: for a sequence with at least one element the type
    assertion to a map fails, and [merge] never returns. *)
Lemma merge_sequence_never_returns fuel (m : order.MapSlice) n nd d :
  load h n = Some nd ->
  Kind nd = SequenceNode ->
  Content nd <> [] ->
  returned (merge h (jsonify Node_Decode h fuel) m n d) = None.
Proof.
  intros Hn Hk Hc. unfold merge, bind, deref. rewrite Hn. cbn. rewrite Hk. cbn.
  destruct (rev (Content nd)) as [| ni idx] eqn:Hrev.
  { apply (f_equal (@rev ptr)) in Hrev. rewrite rev_involutive in Hrev.
    now destruct Hc. }
  cbn [merge_loop]. unfold bind at 1.
  destruct (deref h ni d) as [ndi d1 | e d1 |] eqn:Hni; [| reflexivity..].
  unfold deref in Hni. destruct (load h ni); inversion Hni; subst; clear Hni.
  unfold bind at 1.
  match goal with
  | |- context [match ?c d1 with _ => _ end] =>
      destruct (c d1) as [[] d2 | e d2 |]; [| reflexivity..]
  end.
  unfold bind at 1. unfold mergeInto, bind.
  destruct (jsonify Node_Decode h fuel n d2) as [v d3 | e d3 |] eqn:Hv;
    [| reflexivity..].
  destruct (jsonify_sequence_value _ _ _ _ _ _ Hn Hk Hv) as [l ->].
  reflexivity.
Qed.

End MergeSequence.

(** C1 fails in the code: merging [[m1, m2]] with [m1 = {x: 1}] and
    [m2 = {x: 2, y: 3}] into an empty map does not give [{x: 1, y: 3}]. The
    merge panics with [ErrNotMaps], and so does the conversion of the
    document [{<<: [{x: 1}, {x: 2, y: 3}]}]. *)
Theorem merge_sequence_panics :
  let h := sample.merge_seq in
  let d := sample.plain (h, 1) in
  panicked (merge h (jsonify sample.Decode h 4) [] 4 d) = Some ErrNotMaps /\
  panicked (jsonify sample.Decode h 6 1 d) = Some ErrNotMaps.
Proof. split; reflexivity. Qed.


(** ** Reasoning about outcomes

    [post o Q E F]: a normal return satisfies [Q], a panic satisfies [E], and
    running out of fuel is allowed only if [F] holds. *)


Lemma post_bind {A B} (m : M A) (k : A -> M B) d Q E F :
  post (m d) (fun a d' => post (k a d') Q E F) E F ->
  post (bind m k d) Q E F.
Proof. unfold bind. destruct (m d); cbn; auto. Qed.

Lemma post_mono {A} (o : outcome A) (Q Q' : A -> Decoder -> Prop)
    (E E' : error -> Decoder -> Prop) (F F' : Prop) :
  post o Q E F ->
  (forall a d, Q a d -> Q' a d) -> (forall e d, E e d -> E' e d) -> (F -> F') ->
  post o Q' E' F'.
Proof. destruct o; cbn; auto. Qed.

Lemma Forall_snoc {A} (P : A -> Prop) l x : Forall P l -> P x -> Forall P (l ++ [x]).
Proof. intros Hl Hx. apply Forall_app. split; [exact Hl | now constructor]. Qed.

Lemma Merge_Forall (P : order.MapItem -> Prop) other m :
  Forall P m -> Forall P other -> Forall P (order.Merge m other).
Proof.
  revert m. induction other as [| item rest IH]; intros m Hm Ho; cbn; [exact Hm |].
  apply Forall_cons in Ho as [Hi Hr].
  destruct (order.has (fst item) m); apply IH; auto using Forall_snoc.
Qed.

(** The methods preserve an invariant [I] of the Decoder and build values
    with a property [V], provided the recursive calls do so on the nodes [C]
    they are made on. *)
Section Invariant.
Variable Node_Decode : Node -> any * option string.
Variable h : list Node.
Variable I : Decoder -> Prop.
Variable V : any -> Prop.
Variable E : error -> Decoder -> Prop.
Variable F : Prop.
Variable C : ptr -> Prop.
Variable rec : ptr -> M any.

Let VI (v : any) (d : Decoder) : Prop := V v /\ I d.
Let items (m : order.MapSlice) : Prop := Forall (fun item => V (snd item)) m.

Hypothesis Hrec : forall c, C c -> forall d, I d -> post (rec c d) VI E F.
Hypothesis HE : forall e d, I d -> E e d.
Hypothesis Hnil : V VNil.
Hypothesis Hslice : forall l, Forall V l -> V (VSlice l).
Hypothesis Hmap : forall m, items m <-> V (VMapSlice m).
Hypothesis Hscalar : forall nd d, I d -> post (scalar Node_Decode nd d) VI E F.
Hypothesis Hdoc : forall n d, I d -> I (set_doc n d).

Lemma deref_post {A} n (k : Node -> M A) d Q :
  I d ->
  (forall nd, load h n = Some nd -> post (k nd d) Q E F) ->
  post (bind (deref h n) k d) Q E F.
Proof.
  intros Hd Hk. apply post_bind. unfold deref.
  destruct (load h n) as [nd |]; cbn; auto.
Qed.

Lemma sequence_loop_post cs :
  (forall c, c ∈ cs -> C c) ->
  forall out d, Forall V out -> I d ->
    post (sequence_loop rec cs out d) (fun l d' => Forall V l /\ I d') E F.
Proof.
  induction cs as [| c cs IH]; intros HC out d Hout Hd; cbn [sequence_loop].
  - split; assumption.
  - apply post_bind.
    eapply post_mono; [apply Hrec; [apply HC; left | exact Hd] | | auto..].
    intros v d' [Hv Hd']. apply IH; auto using Forall_snoc.
    intros c' Hc'. apply HC. now right.
Qed.

Lemma jsonifyKey_post n d :
  C n -> I d -> post (jsonifyKey rec n d) (fun _ d' => I d') E F.
Proof.
  intros Hn Hd. unfold jsonifyKey. apply post_bind.
  eapply post_mono; [apply Hrec; eassumption | | auto..].
  intros key d' [_ Hd'].
  assert (Hm : post (match KeyMarshal d' with
                     | None => Panic nilDereference d'
                     | Some marshal =>
                         match marshal key with
                         | (_, Some err) => Panic err d'
                         | (out, None) => Ret (string_of_list_byte out) d'
                         end
                     end) (fun _ d' => I d') E F).
  { destruct (KeyMarshal d') as [marshal |]; cbn; auto.
    destruct (marshal key) as [out [err |]]; cbn; auto. }
  destruct key; cbn; auto; destruct str; cbn; auto.
Qed.

Lemma mergeInto_post m n d :
  C n -> items m -> I d ->
  post (mergeInto rec m n d) (fun m' d' => items m' /\ I d') E F.
Proof.
  intros Hn Hm Hd. unfold mergeInto. apply post_bind.
  eapply post_mono; [apply Hrec; eassumption | | auto..].
  intros v d' [Hv Hd']. destruct v; cbn; auto.
  split; [| exact Hd']. apply Merge_Forall; [exact Hm | now apply Hmap].
Qed.

Lemma merge_loop_post n idx :
  C n ->
  forall m d, items m -> I d ->
    post (merge_loop h rec n idx m d) (fun m' d' => items m' /\ I d') E F.
Proof.
  intros Hn. induction idx as [| ni idx IH]; intros m d Hm Hd; cbn [merge_loop].
  - split; assumption.
  - apply deref_post; [exact Hd |]. intros ndi _.
    apply post_bind.
    assert (Hcheck : forall c : M unit,
               post (c d) (fun _ d' => I d') E F ->
               post (c d) (fun _ d' =>
                 post (bind (mergeInto rec m n) (fun m' => merge_loop h rec n idx m') d')
                      (fun m' d' => items m' /\ I d') E F) E F).
    { intros c Hc. eapply post_mono; [exact Hc | | auto..].
      intros [] d' Hd'. apply post_bind.
      eapply post_mono; [now apply mergeInto_post | | auto..].
      intros m' d'' [Hm' Hd'']. now apply IH. }
    apply Hcheck.
    destruct (Kind ndi =? AliasNode)%Z.
    + destruct (negb (Alias ndi =? nil)); cbn; auto.
      apply deref_post; [exact Hd |]. intros t _.
      destruct (negb (Kind t =? MappingNode)%Z); cbn; auto.
    + destruct (negb (Kind ndi =? MappingNode)%Z); cbn; auto.
Qed.

Lemma merge_post m n d :
  C n -> items m -> I d ->
  post (merge h rec m n d) (fun m' d' => items m' /\ I d') E F.
Proof.
  intros Hn Hm Hd. unfold merge. apply deref_post; [exact Hd |]. intros nd _.
  destruct (Kind nd =? AliasNode)%Z.
  { destruct (negb (Alias nd =? nil)); [| now apply mergeInto_post].
    apply deref_post; [exact Hd |]. intros t _.
    destruct (negb (Kind t =? MappingNode)%Z); cbn; auto.
    now apply mergeInto_post. }
  destruct (Kind nd =? MappingNode)%Z; [now apply mergeInto_post |].
  destruct (Kind nd =? SequenceNode)%Z; [now apply merge_loop_post |].
  cbn. auto.
Qed.

Lemma mapping_loop_post cs :
  (forall c, c ∈ cs -> C c) ->
  forall out d, items out -> I d ->
    post (mapping_loop h rec cs out d) (fun m d' => items m /\ I d') E F.
Proof.
  remember (length cs) as len eqn:Hlen. revert cs Hlen.
  induction len as [len IH] using lt_wf_ind. intros cs -> HC out d Hout Hd.
  destruct cs as [| k rest]; cbn [mapping_loop]; [split; assumption |].
  apply deref_post; [exact Hd |]. intros kd _.
  destruct (isMerge kd).
  - destruct rest as [| v rest']; [cbn; auto |].
    apply post_bind.
    eapply post_mono; [apply merge_post; [apply HC; right; left | assumption..] | | auto..].
    intros out' d' [Hout' Hd'].
    eapply (IH (length rest')); [cbn; lia | reflexivity | | assumption..].
    intros c Hc. apply HC. now do 2 right.
  - apply post_bind.
    eapply post_mono; [apply jsonifyKey_post; [apply HC; left | exact Hd] | | auto..].
    intros key d' Hd'. destruct rest as [| v rest']; [cbn; auto |].
    apply post_bind.
    eapply post_mono; [apply Hrec; [apply HC; right; left | exact Hd'] | | auto..].
    intros val d'' [Hval Hd''].
    eapply (IH (length rest')); [cbn; lia | reflexivity | | | assumption].
    + intros c Hc. apply HC. now do 2 right.
    + apply Forall_snoc; assumption.
Qed.

Lemma document_post n nd d :
  (forall c, c ∈ Content nd -> C c) -> I d ->
  post (document rec n nd d) VI E F.
Proof.
  intros HC Hd. unfold document.
  destruct (Content nd) as [| c [| c' cs]]; cbn; auto.
  apply Hrec; [apply HC; left | now apply Hdoc].
Qed.

Lemma dispatch_post n d :
  (forall nd, load h n = Some nd -> forall c, c ∈ Content nd -> C c) ->
  (forall nd, load h n = Some nd -> post (alias rec n nd d) VI E F) ->
  I d ->
  post (dispatch Node_Decode h rec n d) VI E F.
Proof.
  intros HC Halias Hd. unfold dispatch.
  apply deref_post; [exact Hd |]. intros nd Hnd.
  destruct (Kind nd =? DocumentNode)%Z; [apply document_post; eauto |].
  destruct (Kind nd =? AliasNode)%Z; [now apply Halias |].
  destruct (Kind nd =? ScalarNode)%Z; [now apply Hscalar |].
  destruct (Kind nd =? MappingNode)%Z.
  { apply post_bind.
    eapply post_mono; [apply mapping_loop_post; eauto; constructor | | auto..].
    intros m d' [Hm Hd']. split; [now apply Hmap | exact Hd']. }
  destruct (Kind nd =? SequenceNode)%Z.
  { apply post_bind.
    eapply post_mono; [apply sequence_loop_post; eauto; constructor | | auto..].
    intros l d' [Hl Hd']. split; [now apply Hslice | exact Hd']. }
  destruct ((Kind nd =? 0)%Z && IsZero nd); cbn; auto. now split.
Qed.

End Invariant.


(** ** What a conversion leaves in the Decoder *)


Lemma same_config_refl d : same_config d d.
Proof. repeat split. Qed.

Lemma same_config_trans d1 d2 d3 :
  same_config d1 d2 -> same_config d2 d3 -> same_config d1 d3.
Proof. unfold same_config. intuition congruence. Qed.

Lemma same_config_count d : same_config d (count d).
Proof. unfold count. destruct (_ >? _)%Z; repeat split. Qed.

Section Frame.
Variable Node_Decode : Node -> any * option string.
Variable h : list Node.

Lemma scalar_state nd d :
  post (scalar Node_Decode nd d) (fun _ d' => d' = d) (fun _ d' => d' = d) False.
Proof.
  unfold scalar, jsonifyOther.
  destruct (Node_Decode nd) as [out [err |]]; destruct out; cbn; try reflexivity;
    destruct k; reflexivity.
Qed.

(** A conversion that returns leaves the in-progress set as it found it; one
    that panics leaves at least what it found. The configuration is never
    touched. *)
Lemma jsonify_aliases fuel : forall n d0,
  post (jsonify Node_Decode h fuel n d0)
    (fun _ d' => aliases d' = aliases d0 /\ same_config d0 d')
    (fun _ d' => aliases d0 ⊆ aliases d' /\ same_config d0 d')
    True.
Proof.
  induction fuel as [| fuel IH]; intros n d0; [exact Logic.I |].
  rewrite jsonify_S.
  destruct (excessive (count d0)).
  { cbn. rewrite count_aliases. split; [reflexivity | apply same_config_count]. }
  pose (I := fun d => aliases d = aliases d0 /\ same_config d0 d).
  pose (E := fun (_ : error) d => aliases d0 ⊆ aliases d /\ same_config d0 d).
  assert (Hrec : forall c, True -> forall d, I d ->
            post (jsonify Node_Decode h fuel c d) (fun v d' => True /\ I d') E True).
  { intros c _ d [Ha Hc]. eapply post_mono; [apply IH | | | auto].
    - intros ? d' [Ha' Hc']. split; [exact Logic.I |]. split.
      + congruence.
      + eapply same_config_trans; eassumption.
    - intros ? d' [Ha' Hc']. split.
      + now rewrite <- Ha.
      + eapply same_config_trans; eassumption. }
  assert (HE : forall e d, I d -> E e d).
  { intros e d [Ha Hc]. split; [now rewrite Ha | exact Hc]. }
  eapply post_mono.
  - apply (dispatch_post Node_Decode h I (fun _ => True) E True (fun _ => True)
             (jsonify Node_Decode h fuel)); try assumption.
    + exact Logic.I.
    + reflexivity.
    + intros m. split; [reflexivity |]. intros _. apply Forall_forall. reflexivity.
    + intros nd d Hd. eapply post_mono; [apply scalar_state | | | tauto].
      * intros ? d' ->. now split.
      * intros e d' ->. now apply HE.
    + intros n' d [Ha Hc]. split; [exact Ha | exact Hc].
    + reflexivity.
    + intros nd Hnd. subst I E. cbn beta. unfold alias.
      destruct (decide (n ∈ aliases (count d0))) as [Hin | Hin].
      { cbn. rewrite count_aliases. split; [reflexivity | apply same_config_count]. }
      set (d2 := set_aliasDepth _ _).
      specialize (IH (Alias nd) d2).
      destruct (jsonify Node_Decode h fuel (Alias nd) d2) as [out d3 | e d3 |];
        cbn in IH |- *; [| | exact Logic.I].
      * destruct IH as [Ha Hc]. split; [exact Logic.I |]. split.
        -- cbn. rewrite Ha. subst d2. cbn. rewrite count_aliases in *.
           clear - Hin. set_solver.
        -- eapply same_config_trans; [apply same_config_count |].
           destruct Hc as (? & ? & ? & ? & ?). repeat split; assumption.
      * destruct IH as [Ha Hc]. split.
        -- subst d2. cbn in Ha. rewrite count_aliases in Ha.
           clear - Ha. set_solver.
        -- eapply same_config_trans; [apply same_config_count |].
           destruct Hc as (? & ? & ? & ? & ?). repeat split; assumption.
    + split; [apply count_aliases | apply same_config_count].
  - intros v d' [_ Hd']. exact Hd'.
  - intros e d' He. exact He.
  - auto.
Qed.

(** A conversion that returns leaves the alias-nesting depth as it found it. *)
Lemma jsonify_aliasDepth fuel : forall n d0,
  in_int64 (aliasDepth d0) ->
  post (jsonify Node_Decode h fuel n d0)
    (fun _ d' => aliasDepth d' = aliasDepth d0) (fun _ _ => True) True.
Proof.
  induction fuel as [| fuel IH]; intros n d0 Hrange; [exact Logic.I |].
  rewrite jsonify_S.
  destruct (excessive (count d0)); [exact Logic.I |].
  pose (I := fun d => aliasDepth d = aliasDepth d0).
  assert (Hrec : forall c, True -> forall d, I d ->
            post (jsonify Node_Decode h fuel c d) (fun v d' => True /\ I d')
                 (fun _ _ => True) True).
  { intros c _ d Hd. eapply post_mono; [apply IH | | auto..].
    - unfold I in Hd. now rewrite Hd.
    - intros ? d' Hd'. split; [exact Logic.I |]. unfold I in *. congruence. }
  eapply post_mono.
  - apply (dispatch_post Node_Decode h I (fun _ => True) (fun _ _ => True) True
             (fun _ => True) (jsonify Node_Decode h fuel)); try assumption.
    + auto.
    + exact Logic.I.
    + reflexivity.
    + intros m. split; [reflexivity |]. intros _. apply Forall_forall. reflexivity.
    + intros nd d Hd. eapply post_mono; [apply scalar_state | | auto | tauto].
      intros ? d' ->. now split.
    + intros n' d Hd. exact Hd.
    + reflexivity.
    + intros nd Hnd. unfold alias.
      destruct (decide (n ∈ aliases (count d0))) as [Hin | Hin]; [exact Logic.I |].
      set (d2 := set_aliasDepth _ _).
      assert (Hd2 : in_int64 (aliasDepth d2)) by (subst d2; cbn; apply wrap64_range).
      specialize (IH (Alias nd) d2 Hd2).
      destruct (jsonify Node_Decode h fuel (Alias nd) d2) as [out d3 | e d3 |];
        cbn in IH |- *; try exact Logic.I.
      split; [exact Logic.I |]. unfold I. cbn. rewrite IH. subst d2. cbn.
      rewrite count_aliasDepth. now apply wrap64_succ_pred.
    + apply count_aliasDepth.
  - intros v d' [_ Hd']. exact Hd'.
  - auto.
  - auto.
Qed.

End Frame.


(** ** Alias resolution *)

(** C4, as amended: when [alias] returns, the identity of the alias node has
    been removed and the in-progress set is what it was at entry; when
    [alias] aborts with a panic, whether raised by the self-reference check
    or by the recursive conversion, nothing is cleaned up and the set that
    the panic leaves behind holds the identity. *)
Theorem alias_exit_paths Node_Decode h fuel n nd d :
  (forall v d', alias (jsonify Node_Decode h fuel) n nd d = Ret v d' ->
     (n ∉ aliases d') /\ aliases d' = aliases d) /\
  (forall e d', alias (jsonify Node_Decode h fuel) n nd d = Panic e d' ->
     n ∈ aliases d').
Proof.
  unfold alias.
  destruct (decide (n ∈ aliases d)) as [Hin | Hin].
  { split; [discriminate |]. now intros e d' [= _ <-]. }
  set (d2 := set_aliasDepth _ _).
  pose proof (jsonify_aliases Node_Decode h fuel (Alias nd) d2) as Hframe.
  destruct (jsonify Node_Decode h fuel (Alias nd) d2) as [out d3 | e d3 |];
    cbn in Hframe; (split; [intros v d' Heq | intros e' d' Heq]);
    try discriminate Heq.
  - injection Heq as _ <-. destruct Hframe as [Ha _]. cbn. rewrite Ha.
    subst d2. cbn. clear - Hin. set_solver.
  - injection Heq as _ <-. destruct Hframe as [Ha _].
    subst d2. cbn in Ha. clear - Ha. set_solver.
Qed.

(** In [[&a x, *a]] the alias returns the string and leaves the set empty. *)
Example alias_returns_clean :
  let h := sample.aliased_scalar in
  let d := set_doc 1 (set_decodeCount 4 (sample.plain (h, 1))) in
  returned (alias (jsonify sample.Decode h 2) 4 (sample.aliasNode "a" 3) d)
    = Some (VString "x") /\
  (aliases <$> final (alias (jsonify sample.Decode h 2) 4 (sample.aliasNode "a" 3) d))
    = Some ∅.
Proof. split; reflexivity. Qed.

(** C4 fails as stated. In [&a [*a]] the alias is entered with an empty
    in-progress set; the conversion of its target fails (it meets the alias
    again), and the Decoder that the panic leaves behind still holds the
    identity of the alias, at depth 1. *)
Lemma alias_failure_keeps_identity :
  let h := sample.cycle in
  let d := set_doc 1 (set_decodeCount 3 (sample.plain (h, 1))) in
  exists d',
    alias (jsonify sample.Decode h 2) 3 (sample.aliasNode "a" 2) d
      = Panic (AnchorContainsItself "a") d' /\
    (3 ∉ aliases d) /\ (3 ∈ aliases d') /\ aliasDepth d' = 1%Z.
Proof.
  cbv zeta. eexists. split; [reflexivity |]. cbn.
  split; [| split]; [set_solver | set_solver | reflexivity].
Qed.

(** ** Session state across calls *)

(** C3, as amended: the session state is held in the fields of the Decoder
    and [JSON] does not reset it. A call that succeeds leaves the
    in-progress set and the alias-nesting depth as it found them (empty and
    zero for a Decoder freshly made) and never touches the configuration;
    the counters are not covered: they stay as the call leaves them. *)
Theorem JSON_leaves_guard Node_Decode fuel r d v d' :
  in_int64 (aliasDepth d) ->
  JSON Node_Decode fuel r d = Ret (v, None) d' ->
  aliases d' = aliases d /\ aliasDepth d' = aliasDepth d /\ same_config d d'.
Proof.
  intros Hrange. unfold JSON.
  destruct (DecodeYAML d r) as [[h node] [err |]]; [discriminate |].
  pose proof (jsonify_aliases Node_Decode h fuel node d) as Hset.
  pose proof (jsonify_aliasDepth Node_Decode h fuel node d Hrange) as Hdepth.
  destruct (jsonify Node_Decode h fuel node d) as [out d1 | e d1 |];
    cbn in *; try discriminate.
  intros [= <- <-]. destruct Hset as [Ha Hc]. auto.
Qed.

(** The conversion of [{a: 1, <<: {a: 2, b: 3}}] by a Decoder freshly made. *)
Lemma JSON_leaves_guard_witness :
  let d := sample.plain (sample.merge_map, 1) in
  let d' := set_doc 1 (set_decodeCount 9 d) in
  let v := VMapSlice [("a", VInt 1); ("b", VInt 3)] in
  in_int64 (aliasDepth d) /\
  JSON sample.Decode 4 [] d = Ret (v, None) d' /\
  aliases d' = aliases d /\ aliasDepth d' = aliasDepth d /\ same_config d d'.
Proof.
  intros d d' v.
  assert (Hrange : in_int64 (aliasDepth d)) by (unfold in_int64; cbn; lia).
  assert (Hrun : JSON sample.Decode 4 [] d = Ret (v, None) d') by reflexivity.
  split; [exact Hrange |]. split; [exact Hrun |].
  exact (JSON_leaves_guard sample.Decode 4 [] d v d' Hrange Hrun).
Defined.

(** C3 fails as stated. One Decoder, freshly made, is used for two calls.
    The first reads [&a [*a]] and is rejected; it leaves the depth at 1. The
    second reads a sequence of 1000 strings, which holds no alias at all and
    which a fresh Decoder converts without error: here every node counts as
    alias-driven and the call is rejected for excessive aliasing. *)
Lemma JSON_second_call_differs :
  let first := list_byte_of_string sample.cyclic_text in
  let second := list_byte_of_string sample.plain_text in
  let fresh := sample.parsing in
  (snd <$> returned (JSON sample.Decode 8 second fresh)) = Some None /\
  sample.error_after (JSON sample.Decode 8 first fresh)
    (JSON sample.Decode 8 second) = Some (Some ExcessiveAliasing).
Proof. split; vm_compute; reflexivity. Qed.

(** The counters also outlive a call that succeeds. A document whose root is
    an alias to a sequence of 600 strings is converted twice by one Decoder:
    the first call succeeds and leaves 603 decodes, 601 of them
    alias-driven; the second call, on the same document, is rejected. *)
Example JSON_counters_carry_over :
  let h := sample.aliased_seq 600 in
  let d := sample.plain (h, 1) in
  let run := JSON sample.Decode 4 [] in
  (snd <$> returned (run d)) = Some None /\
  (decodeCount <$> final (run d)) = Some 603%Z /\
  (aliasCount <$> final (run d)) = Some 601%Z /\
  sample.error_after (run d) run = Some (Some ExcessiveAliasing).
Proof. repeat split; vm_compute; reflexivity. Qed.


(** ** The Decoder of [Unmarshal] *)

Section Stable.
Variable h : list Node.
Variable I : Decoder -> Prop.
Variable V : any -> Prop.
Variable E : error -> Decoder -> Prop.
Variable F : Prop.
Variable rec : ptr -> M any.
Hypothesis Hrec : forall c d, I d -> post (rec c d) (fun v d' => V v /\ I d') E F.
Hypothesis HE : forall e d, I d -> E e d.
Hypothesis Hset : forall s d, I d -> I (set_aliases s d).
Hypothesis Hdepth : forall z d, I d -> I (set_aliasDepth z d).

(** [alias] keeps an invariant that does not read the guard fields. *)
Lemma alias_post_stable n nd d :
  I d -> post (alias rec n nd d) (fun v d' => V v /\ I d') E F.
Proof.
  intros Hd. unfold alias.
  destruct (decide (n ∈ aliases d)); [cbn; auto |].
  set (d2 := set_aliasDepth _ _).
  assert (Hd2 : I d2) by (subst d2; auto).
  specialize (Hrec (Alias nd) d2 Hd2).
  destruct (rec (Alias nd) d2) as [out d3 | e d3 |]; cbn in *; auto.
  destruct Hrec as [Hv Hd3]. auto.
Qed.

End Stable.


Lemma jsonifyFloat_unmarshal d f :
  unmarshal_config d -> finite_floats (jsonifyFloat d f) = true.
Proof.
  intros (Hnan & Hpos & Hneg). unfold jsonifyFloat. rewrite Hnan, Hpos, Hneg.
  destruct f as [s | [|] | | s m e]; reflexivity.
Qed.

Section Finite.
Variable Node_Decode : Node -> any * option string.
Variable h : list Node.

Lemma scalar_finite nd d :
  unmarshal_config d ->
  post (scalar Node_Decode nd d)
    (fun v d' => finite_floats v = true /\ unmarshal_config d')
    (fun _ _ => True) True.
Proof.
  intros Hd. unfold scalar, jsonifyOther.
  destruct (Node_Decode nd) as [out [err |]]; destruct out; cbn; auto;
    try (destruct k; cbn; auto).
  split; [now apply jsonifyFloat_unmarshal | exact Hd].
Qed.

(** With the sentinels of [Unmarshal] in place, no value that the converter
    returns holds a raw NaN or a raw infinity. *)
Lemma jsonify_finite fuel : forall n d,
  unmarshal_config d ->
  post (jsonify Node_Decode h fuel n d)
    (fun v d' => finite_floats v = true /\ unmarshal_config d')
    (fun _ _ => True) True.
Proof.
  induction fuel as [| fuel IH]; intros n d Hd; [exact Logic.I |].
  rewrite jsonify_S. destruct (excessive (count d)); [exact Logic.I |].
  assert (Hcount : unmarshal_config (count d)).
  { unfold count. destruct (_ >? _)%Z; exact Hd. }
  apply (dispatch_post Node_Decode h unmarshal_config
           (fun v => finite_floats v = true) (fun _ _ => True) True
           (fun _ => True) (jsonify Node_Decode h fuel)); auto.
  - intros l Hl. cbn. apply forallb_forall. intros x Hx.
    rewrite Forall_forall in Hl. apply Hl. now apply list_elem_of_In.
  - intros m. cbn. rewrite forallb_forall, Forall_forall. split.
    + intros Hm [key x] Hx. apply (Hm (key, x)). now apply list_elem_of_In.
    + intros Hm [key x] Hx. apply (Hm (key, x)). now apply list_elem_of_In.
  - intros nd d' Hd'. now apply scalar_finite.
  - intros nd _. apply alias_post_stable; auto.
Qed.

End Finite.

(** C10: [Unmarshal] always builds its Decoder with the same three
    sentinels: [NaN] is the typed nil pointer, which is not the nil
    interface, so that a NaN is replaced by it (and written as [null] by the
    JSON encoder); [PosInf] is [math.MaxFloat64] and [NegInf] its opposite.
    Whatever [Unmarshal] stores for its caller holds no raw NaN and no raw
    infinity. *)
Theorem Unmarshal_substitutes_nonfinite
    json_Valid json_Unmarshal goyaml_Decode Node_Decode fuel src canSet :
  let d := unmarshalDecoder goyaml_Decode in
  NaN d = VPtrFloat64 None /\ NaN d <> VNil /\
  PosInf d = VFloat64 math.MaxFloat64 /\
  NegInf d = VFloat64 (f64.opp math.MaxFloat64) /\
  (forall f, math.IsNaN f = true -> jsonifyFloat d f = VPtrFloat64 None) /\
  (forall f, math.IsInf f 1 = true -> jsonifyFloat d f = VFloat64 math.MaxFloat64) /\
  (forall f, math.IsInf f (-1) = true ->
     jsonifyFloat d f = VFloat64 (f64.opp math.MaxFloat64)) /\
  (forall out,
     Unmarshal json_Valid json_Unmarshal goyaml_Decode Node_Decode fuel src canSet
       = Some (inl out) ->
     finite_floats out = true).
Proof.
  cbv zeta. repeat apply conj; try reflexivity; try discriminate.
  - intros [s | [|] | | s m e] Hf; try discriminate Hf. reflexivity.
  - intros [s | [|] | | s m e] Hf; try discriminate Hf. reflexivity.
  - intros [s | [|] | | s m e] Hf; try discriminate Hf. reflexivity.
  - intros out. unfold Unmarshal, JSON.
    destruct (negb (json_Valid src)).
    { destruct (json_Unmarshal src); discriminate. }
    cbn [DecodeYAML unmarshalDecoder].
    destruct (goyaml_Decode src) as [[h node] [err |]]; [discriminate |].
    pose proof (jsonify_finite Node_Decode h fuel node
                  (unmarshalDecoder goyaml_Decode)) as Hfin.
    destruct (jsonify Node_Decode h fuel node (unmarshalDecoder goyaml_Decode))
      as [v d' | e d' |]; cbn in *; try discriminate.
    destruct (negb canSet); [discriminate |].
    intros [= <-]. apply Hfin. repeat split.
Qed.

(** [Unmarshal] on [[1e999, -1e999]]: the two infinities come out as the
    largest and the smallest finite float64. *)
Example Unmarshal_huge_floats :
  Unmarshal (fun _ => true) (fun _ => None)
    (fun _ => ((sample.huge_floats, 1), None)) sample.Decode 4
    (list_byte_of_string "[1e999, -1e999]") true
  = Some (inl (VSlice [VFloat64 math.MaxFloat64;
                       VFloat64 (f64.opp math.MaxFloat64)])).
Proof. reflexivity. Qed.


(** ** Termination of the walk

    The walk follows [Content] and [Alias] pointers. The [Content] pointers
    of a node tree descend (the hypothesis [Hrk] below); an alias is entered
    only while its identity is not in progress, and stays in progress for as
    long as its target is converted. *)


Lemma load_dom h n nd : load h n = Some nd -> n ∈ dom_set h.
Proof.
  destruct n as [| a]; [discriminate |]. cbn. intros Ha.
  apply lookup_lt_Some in Ha. unfold dom_set.
  apply elem_of_list_to_set, elem_of_seq. lia.
Qed.

Section Termination.
Variable Node_Decode : Node -> any * option string.
Variable h : list Node.
Variable rk : ptr -> nat.
Hypothesis Hrk : forall n nd c, load h n = Some nd -> c ∈ Content nd -> rk c < rk n.


Lemma settles_mono S n N N' :
  N <= N' -> settles Node_Decode h S n N -> settles Node_Decode h S n N'.
Proof. intros Hle Hs fuel Hfuel. apply Hs. lia. Qed.

Lemma settles_all S (cs : list ptr) :
  (forall c, c ∈ cs -> exists N, settles Node_Decode h S c N) ->
  exists N, forall c, c ∈ cs -> settles Node_Decode h S c N.
Proof.
  induction cs as [| c cs IH]; intros Hcs.
  - exists 0. intros c Hc. inversion Hc.
  - destruct (Hcs c) as [N1 H1]; [left |].
    destruct IH as [N2 H2]; [intros c' Hc'; apply Hcs; now right |].
    exists (Nat.max N1 N2). intros c' Hc'.
    apply elem_of_cons in Hc' as [-> | Hc'].
    + eapply settles_mono; [| exact H1]. lia.
    + eapply settles_mono; [| now apply H2]. lia.
Qed.

Lemma settles_step S n :
  (forall nd c, load h n = Some nd -> c ∈ Content nd ->
     exists N, settles Node_Decode h S c N) ->
  (forall nd, load h n = Some nd -> n ∉ S ->
     exists N, settles Node_Decode h ({[n]} ∪ S) (Alias nd) N) ->
  exists N, settles Node_Decode h S n N.
Proof.
  intros Hkids Htarget.
  pose (kids := match load h n with Some nd => Content nd | None => [] end).
  destruct (settles_all S kids) as [N1 H1].
  { subst kids. intros c Hc. destruct (load h n) as [nd |] eqn:Hn.
    - eapply Hkids; [reflexivity | exact Hc].
    - inversion Hc. }
  assert (exists N2, forall nd, load h n = Some nd -> n ∉ S ->
                       settles Node_Decode h ({[n]} ∪ S) (Alias nd) N2) as [N2 H2].
  { destruct (load h n) as [nd |] eqn:Hn; [| exists 0; discriminate].
    destruct (decide (n ∈ S)) as [Hin | Hin]; [exists 0; intros; tauto |].
    destruct (Htarget nd eq_refl Hin) as [N2 H2]. exists N2.
    now intros nd' [= <-] _. }
  exists (Datatypes.S (Nat.max N1 N2)). intros fuel Hfuel d Hd.
  destruct fuel as [| fuel]; [lia |]. rewrite jsonify_S.
  destruct (excessive (count d)); [exact Logic.I |].
  eapply post_mono.
  - apply (dispatch_post Node_Decode h (fun d => aliases d = S) (fun _ => True)
             (fun _ _ => True) False (fun c => c ∈ kids)
             (jsonify Node_Decode h fuel)).
    + intros c Hc d' Hd'. eapply post_mono; [apply (H1 c Hc fuel) | | auto..].
      * lia.
      * exact Hd'.
      * intros v d'' Hd''. now split.
    + auto.
    + exact Logic.I.
    + reflexivity.
    + intros m. split; [reflexivity |]. intros _. apply Forall_forall. reflexivity.
    + intros nd d' Hd'. eapply post_mono; [apply scalar_state | | auto | tauto].
      intros v d'' ->. now split.
    + intros n' d' Hd'. exact Hd'.
    + intros nd Hn c Hc. subst kids. now rewrite Hn.
    + intros nd Hn. unfold alias. rewrite count_aliases, Hd.
      destruct (decide (n ∈ S)) as [Hin | Hin]; [exact Logic.I |].
      set (d2 := set_aliasDepth _ _).
      assert (Hd2 : aliases d2 = {[n]} ∪ S).
      { subst d2. reflexivity. }
      pose proof (H2 nd Hn Hin fuel ltac:(lia) d2 Hd2) as Ht.
      destruct (jsonify Node_Decode h fuel (Alias nd) d2) as [out d3 | e d3 |];
        cbn in Ht |- *; auto.
      split; [exact Logic.I |]. rewrite Ht. clear - Hin. set_solver.
    + now rewrite count_aliases.
  - intros v d' [_ Hd']. exact Hd'.
  - auto.
  - auto.
Qed.

Lemma settles_any : forall S n, exists N, settles Node_Decode h S n N.
Proof.
  intros S. remember (size (dom_set h ∖ S)) as k eqn:Hk. revert S Hk.
  induction k as [k IHk] using lt_wf_ind. intros S -> n.
  remember (rk n) as r eqn:Hr. revert n Hr.
  induction r as [r IHr] using lt_wf_ind. intros n ->.
  apply settles_step.
  - intros nd c Hn Hc. eapply IHr; [eapply Hrk; eassumption | reflexivity].
  - intros nd Hn Hin. eapply IHk; [| reflexivity].
    apply subset_size. apply load_dom in Hn. clear - Hn Hin. set_solver.
Qed.

(** The walk of a node tree always comes to an end. *)
Lemma jsonify_terminates n d :
  exists N, forall fuel, N <= fuel -> jsonify Node_Decode h fuel n d <> OutOfFuel.
Proof.
  destruct (settles_any (aliases d) n) as [N HN]. exists N.
  intros fuel Hfuel Hout. specialize (HN fuel Hfuel d eq_refl).
  now rewrite Hout in HN.
Qed.

End Termination.


(** ** Conversions that cannot return *)


Lemma noret_bind {A B} (m : M A) (k : A -> M B) d :
  post (m d) (fun a d' => noret (k a d')) (fun _ _ => True) True ->
  noret (bind m k d).
Proof. apply post_bind. Qed.

Lemma noret_returned {A} (o : outcome A) : noret o <-> returned o = None.
Proof. destruct o; cbn; intuition discriminate. Qed.

(** If the recursive call on [c0] cannot return, no method that makes this
    call can return either. [I] is an invariant of the Decoder that the
    calls which do return preserve. *)
Section NoReturn.
Variable Node_Decode : Node -> any * option string.
Variable h : list Node.
Variable I : Decoder -> Prop.
Variable rec : ptr -> M any.
Variable c0 : ptr.

Hypothesis Hrec : forall c d, I d ->
  post (rec c d) (fun _ d' => I d') (fun _ _ => True) True.
Hypothesis Hc0 : forall d, I d -> noret (rec c0 d).
Hypothesis Hdoc : forall n d, I d -> I (set_doc n d).
Hypothesis Hset : forall s d, I d -> I (set_aliases (s ∪ aliases d) d).
Hypothesis Hdepth : forall z d, I d -> I (set_aliasDepth z d).

Let Hrec' : forall c, True -> forall d, I d ->
  post (rec c d) (fun v d' => True /\ I d') (fun _ _ => True) True.
Proof.
  intros c _ d Hd. eapply post_mono; [now apply Hrec | | auto..].
  intros v d' Hd'. now split.
Qed.

Let keeps {A} (o : outcome A) : Prop :=
  post o (fun _ d' => I d') (fun _ _ => True) True.

Lemma deref_noret {A} n (k : Node -> M A) d :
  (forall nd, load h n = Some nd -> noret (k nd d)) ->
  noret (bind (deref h n) k d).
Proof.
  intros Hk. apply noret_bind. unfold deref.
  destruct (load h n) as [nd |]; cbn; auto.
Qed.

Lemma jsonifyKey_keeps n d : I d -> keeps (jsonifyKey rec n d).
Proof.
  intros Hd.
  apply (jsonifyKey_post I (fun _ => True) (fun _ _ => True) True (fun _ => True)
           rec Hrec'); auto.
Qed.

Lemma merge_keeps m n d : I d -> keeps (merge h rec m n d).
Proof.
  intros Hd. eapply post_mono.
  - apply (merge_post h I (fun _ => True) (fun _ _ => True) True (fun _ => True)
             rec Hrec'); auto.
    + intros m'. split; [reflexivity |]. intros _. apply Forall_forall. reflexivity.
    + apply Forall_forall. reflexivity.
  - intros m' d' [_ Hd']. exact Hd'.
  - auto.
  - auto.
Qed.

Lemma sequence_loop_noret cs :
  c0 ∈ cs -> forall out d, I d -> noret (sequence_loop rec cs out d).
Proof.
  induction cs as [| c cs IH]; intros Hin out d Hd; [inversion Hin |].
  cbn [sequence_loop]. apply noret_bind.
  apply elem_of_cons in Hin as [<- | Hin].
  - eapply post_mono; [now apply Hc0 | | auto..]. intros v d' [].
  - eapply post_mono; [now apply Hrec | | auto..].
    intros v d' Hd'. now apply IH.
Qed.

Lemma mergeInto_noret m d : I d -> noret (mergeInto rec m c0 d).
Proof.
  intros Hd. unfold mergeInto. apply noret_bind.
  eapply post_mono; [now apply Hc0 | | auto..]. intros v d' [].
Qed.

Lemma merge_noret m v d :
  c0 ∈ merge_calls h v -> I d -> noret (merge h rec m v d).
Proof.
  unfold merge_calls. intros Hin Hd. unfold merge.
  apply deref_noret. intros vd Hv. rewrite Hv in Hin.
  destruct (Kind vd =? AliasNode)%Z eqn:Hka.
  { assert (c0 = v) as <-.
    { apply Z.eqb_eq in Hka. rewrite Hka in Hin. cbn in Hin.
      now apply list_elem_of_singleton in Hin. }
    destruct (negb (Alias vd =? nil)); [| now apply mergeInto_noret].
    apply deref_noret. intros t _.
    destruct (negb (Kind t =? MappingNode)%Z); [exact Logic.I |].
    now apply mergeInto_noret. }
  destruct (Kind vd =? MappingNode)%Z eqn:Hkm.
  { assert (c0 = v) as <-.
    { apply Z.eqb_eq in Hkm. rewrite Hkm in Hin. cbn in Hin.
      now apply list_elem_of_singleton in Hin. }
    now apply mergeInto_noret. }
  destruct (Kind vd =? SequenceNode)%Z; [| exact Logic.I].
  destruct (Content vd) as [| c cs] eqn:Hc using rev_ind; [inversion Hin |].
  cbn in Hin. rewrite length_app, Nat.add_comm in Hin. cbn in Hin.
  apply list_elem_of_singleton in Hin as <-.
  rewrite rev_app_distr. cbn [rev app merge_loop].
  apply deref_noret. intros ndi _. apply noret_bind.
  match goal with
  | |- post (?c d) _ _ _ =>
      assert (Hcheck : post (c d) (fun _ d' => d' = d) (fun _ _ => True) True)
  end.
  { destruct (Kind ndi =? AliasNode)%Z.
    - destruct (negb (Alias ndi =? nil)); [| reflexivity].
      unfold bind, deref. destruct (load h (Alias ndi)) as [t |]; cbn; auto.
      destruct (negb (Kind t =? MappingNode)%Z); cbn; auto.
    - destruct (negb (Kind ndi =? MappingNode)%Z); cbn; auto. }
  eapply post_mono; [exact Hcheck | | auto..].
  intros [] d' ->. apply noret_bind.
  eapply post_mono; [now apply mergeInto_noret | | auto..]. intros m' d' [].
Qed.

Lemma mapping_loop_noret cs :
  c0 ∈ mapping_calls h cs ->
  forall out d, I d -> noret (mapping_loop h rec cs out d).
Proof.
  remember (length cs) as len eqn:Hlen. revert cs Hlen.
  induction len as [len IH] using lt_wf_ind. intros cs -> Hin out d Hd.
  destruct cs as [| k [| v rest]]; try (inversion Hin; fail).
  cbn [mapping_calls] in Hin. cbn [mapping_loop].
  apply deref_noret. intros kd Hk. rewrite Hk in Hin.
  apply elem_of_app in Hin.
  destruct (isMerge kd).
  - apply noret_bind. destruct Hin as [Hin | Hin].
    + eapply post_mono; [now apply merge_noret | | auto..]. intros m' d' [].
    + eapply post_mono; [now apply merge_keeps | | auto..].
      intros out' d' Hd'.
      eapply (IH (length rest)); [cbn; lia | reflexivity | assumption..].
  - apply noret_bind.
    destruct Hin as [Hin | Hin];
      [apply elem_of_cons in Hin as [<- | Hin];
       [| apply list_elem_of_singleton in Hin as <-] |].
    + unfold jsonifyKey. apply post_bind.
      eapply post_mono; [now apply Hc0 | | auto..]. intros v' d' [].
    + eapply post_mono; [now apply jsonifyKey_keeps | | auto..].
      intros key d' Hd'. apply noret_bind.
      eapply post_mono; [now apply Hc0 | | auto..]. intros v' d'' [].
    + eapply post_mono; [now apply jsonifyKey_keeps | | auto..].
      intros key d' Hd'. apply noret_bind.
      eapply post_mono; [now apply Hrec | | auto..].
      intros val d'' Hd''.
      eapply (IH (length rest)); [cbn; lia | reflexivity | assumption..].
Qed.

Lemma dispatch_noret n d :
  visits h n c0 -> I d -> noret (dispatch Node_Decode h rec n d).
Proof.
  intros (nd & Hn & Hin) Hd. unfold dispatch.
  apply deref_noret. intros nd' Hn'. rewrite Hn in Hn'. injection Hn' as <-.
  unfold calls in Hin.
  destruct (Kind nd =? DocumentNode)%Z.
  { unfold document. destruct (Content nd) as [| c [| c' cs]]; try exact Logic.I.
    apply list_elem_of_singleton in Hin as <-. now apply Hc0, Hdoc. }
  destruct (Kind nd =? AliasNode)%Z.
  { apply list_elem_of_singleton in Hin as ->. unfold alias.
    destruct (decide (n ∈ aliases d)); [exact Logic.I |].
    set (d2 := set_aliasDepth _ _).
    assert (Hd2 : I d2) by (subst d2; auto).
    specialize (Hc0 d2 Hd2).
    destruct (rec (Alias nd) d2); cbn in *; auto. }
  destruct (Kind nd =? ScalarNode)%Z; [inversion Hin |].
  destruct (Kind nd =? MappingNode)%Z.
  { apply noret_bind.
    eapply post_mono; [now apply mapping_loop_noret | | auto..]. intros m d' []. }
  destruct (Kind nd =? SequenceNode)%Z; [| inversion Hin].
  apply noret_bind.
  eapply post_mono; [now apply sequence_loop_noret | | auto..]. intros l d' [].
Qed.

End NoReturn.


(** ** Cyclic aliases *)

Section Cycles.
Variable Node_Decode : Node -> any * option string.
Variable h : list Node.


Section Stable.
Variable I : Decoder -> Prop.
Hypothesis Hret : forall fuel n d, I d ->
  post (jsonify Node_Decode h fuel n d) (fun _ d' => I d') (fun _ _ => True) True.
Hypothesis Hcount : forall d, I d -> I (count d).
Hypothesis Hdoc : forall n d, I d -> I (set_doc n d).
Hypothesis Hset : forall s d, I d -> I (set_aliases (s ∪ aliases d) d).
Hypothesis Hdepth : forall z d, I d -> I (set_aliasDepth z d).

Lemma doomed_visits n c :
  visits h n c -> doomed Node_Decode h I c -> doomed Node_Decode h I n.
Proof.
  intros Hvis Hc fuel d Hd. destruct fuel as [| fuel]; [exact Logic.I |].
  rewrite jsonify_S. destruct (excessive (count d)); [exact Logic.I |].
  apply (dispatch_noret Node_Decode h I (jsonify Node_Decode h fuel) c); auto.
Qed.

Lemma doomed_reach n a :
  rtc (visits h) n a -> doomed Node_Decode h I a -> doomed Node_Decode h I n.
Proof.
  induction 1 as [| n c a Hvis _ IH]; [auto |].
  intros Ha. eapply doomed_visits; eauto.
Qed.

End Stable.

Lemma doomed_while_in_progress a nda :
  load h a = Some nda -> Kind nda = AliasNode ->
  doomed Node_Decode h (fun d => a ∈ aliases d) a.
Proof.
  intros Ha Hk fuel d Hd. destruct fuel as [| fuel]; [exact Logic.I |].
  rewrite jsonify_S. destruct (excessive (count d)); [exact Logic.I |].
  unfold dispatch, bind, deref. rewrite Ha. cbn. rewrite Hk. cbn.
  unfold alias. rewrite count_aliases.
  destruct (decide (a ∈ aliases d)); [exact Logic.I | contradiction].
Qed.

Lemma doomed_cycle a nda :
  load h a = Some nda -> Kind nda = AliasNode ->
  rtc (visits h) (Alias nda) a ->
  doomed Node_Decode h (fun _ => True) a.
Proof.
  intros Ha Hk Hback fuel d _. destruct fuel as [| fuel]; [exact Logic.I |].
  rewrite jsonify_S. destruct (excessive (count d)); [exact Logic.I |].
  unfold dispatch, bind, deref. rewrite Ha. cbn. rewrite Hk. cbn.
  unfold alias.
  destruct (decide (a ∈ aliases (count d))); [exact Logic.I |].
  set (d2 := set_aliasDepth _ _).
  assert (Hd2 : a ∈ aliases d2) by (subst d2; cbn -[count]; set_solver).
  assert (Htarget : doomed Node_Decode h (fun d => a ∈ aliases d) (Alias nda)).
  { apply (doomed_reach (fun d => a ∈ aliases d)) with (a := a).
    - intros fuel' n' d' Hd'.
      pose proof (jsonify_aliases Node_Decode h fuel' n' d') as Hfr.
      destruct (jsonify Node_Decode h fuel' n' d'); cbn in *; auto.
      destruct Hfr as [-> _]. exact Hd'.
    - intros d' Hd'. now rewrite count_aliases.
    - intros n' d' Hd'. exact Hd'.
    - intros s d' Hd'. cbn. set_solver.
    - intros z d' Hd'. exact Hd'.
    - exact Hback.
    - eapply doomed_while_in_progress; eassumption. }
  specialize (Htarget fuel d2 Hd2).
  destruct (jsonify Node_Decode h fuel (Alias nda) d2); cbn in *; auto.
Qed.

Variable rk : ptr -> nat.
Hypothesis Hrk : forall n nd c, load h n = Some nd -> c ∈ Content nd -> rk c < rk n.

(** C5, as amended: in a node tree, when the conversion of [root] comes to
    an alias [a] whose target converts [a] again, directly or through other
    nodes, the conversion of [root] comes to an end and fails: with enough
    fuel the walk panics; it neither returns a value nor runs forever. *)
Theorem cyclic_alias_is_rejected root a nda d :
  load h a = Some nda -> Kind nda = AliasNode ->
  rtc (visits h) root a ->
  rtc (visits h) (Alias nda) a ->
  exists N, forall fuel, N <= fuel ->
    exists e d', jsonify Node_Decode h fuel root d = Panic e d'.
Proof.
  intros Ha Hk Hreach Hback.
  destruct (jsonify_terminates Node_Decode h rk Hrk root d) as [N HN].
  exists N. intros fuel Hfuel. specialize (HN fuel Hfuel).
  assert (Hdoomed : doomed Node_Decode h (fun _ => True) root).
  { apply (doomed_reach (fun _ => True)) with (a := a); auto.
    - intros fuel' n' d' _.
      destruct (jsonify Node_Decode h fuel' n' d'); exact Logic.I.
    - eapply doomed_cycle; eassumption. }
  specialize (Hdoomed fuel d Logic.I).
  destruct (jsonify Node_Decode h fuel root d) as [v d' | e d' |];
    [destruct Hdoomed | eauto | contradiction].
Qed.

End Cycles.

(** [&a [*a]]: the document (node 1) holds the sequence (node 2), which holds
    the alias (node 3), whose target is the sequence. *)
Lemma cyclic_alias_is_rejected_witness :
  let h := sample.cycle in
  let rk := fun n : ptr => 4 - n in
  let d := sample.plain (h, 1) in
  (forall n nd c, load h n = Some nd -> c ∈ Content nd -> rk c < rk n) /\
  load h 3 = Some (sample.aliasNode "a" 2) /\
  Kind (sample.aliasNode "a" 2) = AliasNode /\
  rtc (visits h) 1 3 /\ rtc (visits h) (Alias (sample.aliasNode "a" 2)) 3 /\
  exists N, forall fuel, N <= fuel ->
    exists e d', jsonify sample.Decode h fuel 1 d = Panic e d'.
Proof.
  intros h rk d.
  assert (Hrk : forall n nd c, load h n = Some nd -> c ∈ Content nd -> rk c < rk n).
  { intros n nd c Hn Hc. subst rk. cbv beta.
    destruct n as [| [| [| [| n]]]]; cbn in Hn; try discriminate Hn;
      injection Hn as <-; cbn in Hc;
      repeat (apply elem_of_cons in Hc as [-> | Hc]); try lia; inversion Hc. }
  assert (H12 : visits h 1 2).
  { exists (sample.documentNode 2). split; [reflexivity | left]. }
  assert (H23 : visits h 2 3).
  { exists (sample.anchored "a" (sample.sequenceNode [3])).
    split; [reflexivity | left]. }
  assert (Hback : rtc (visits h) 2 3) by (eapply rtc_l; [exact H23 | apply rtc_refl]).
  assert (Hreach : rtc (visits h) 1 3) by (eapply rtc_l; [exact H12 | exact Hback]).
  split; [exact Hrk |]. do 2 (split; [reflexivity |]).
  split; [exact Hreach |]. split; [exact Hback |].
  exact (cyclic_alias_is_rejected sample.Decode h rk Hrk 1 3
           (sample.aliasNode "a" 2) d eq_refl eq_refl Hreach Hback).
Defined.

(** The cycle of [&a [*a]] is reported as such. *)
Example cycle_is_reported :
  panicked (jsonify sample.Decode sample.cycle 8 1 (sample.plain (sample.cycle, 1)))
  = Some (AnchorContainsItself "a").
Proof. reflexivity. Qed.

(** C5 fails as stated. In [&a [{<<: 5}, *a]] the alias (node 6) points to
    the sequence (node 2) that holds it, and the document (node 1) holds that
    sequence; the conversion fails, but on the merge of a scalar, which comes
    first: the error is [ErrNotMaps], not the cyclic-reference error. *)
Lemma cycle_behind_another_failure :
  let h := sample.cycle_late in
  load h 6 = Some (sample.aliasNode "a" 2) /\
  visits h 1 2 /\ visits h 2 6 /\
  panicked (jsonify sample.Decode h 8 1 (sample.plain (h, 1))) = Some ErrNotMaps.
Proof.
  cbv zeta. split; [reflexivity |]. split; [| split]; [| | reflexivity].
  - exists (sample.documentNode 2). split; [reflexivity | left].
  - exists (sample.anchored "a" (sample.sequenceNode [3; 6])).
    split; [reflexivity | right; left].
Qed.


(** ** More fuel changes nothing *)

(** [extends o o']: [o'] is [o], unless [o] ran out of fuel. *)
Lemma extends_bind {A B} (m1 m2 : M A) (k1 k2 : A -> M B) d :
  extends (m1 d) (m2 d) ->
  (forall a d', extends (k1 a d') (k2 a d')) ->
  extends (bind m1 k1 d) (bind m2 k2 d).
Proof.
  unfold extends, bind. intros Hm Hk.
  destruct (m1 d) as [a d' | e d' |]; intros Hne.
  - rewrite Hm by discriminate. now apply Hk.
  - now rewrite Hm by discriminate.
  - now destruct Hne.
Qed.

Lemma extends_refl {A} (o : outcome A) : extends o o.
Proof. now intros _. Qed.

Section Fuel.
Variable Node_Decode : Node -> any * option string.
Variable h : list Node.
Variables rec1 rec2 : ptr -> M any.
Hypothesis Hrec : forall n d, extends (rec1 n d) (rec2 n d).

Lemma sequence_loop_extends cs : forall out d,
  extends (sequence_loop rec1 cs out d) (sequence_loop rec2 cs out d).
Proof.
  induction cs as [| c cs IH]; intros out d; cbn [sequence_loop].
  - apply extends_refl.
  - apply extends_bind; [apply Hrec | intros v d'; apply IH].
Qed.

Lemma jsonifyKey_extends n d :
  extends (jsonifyKey rec1 n d) (jsonifyKey rec2 n d).
Proof.
  unfold jsonifyKey. apply extends_bind; [apply Hrec |].
  intros key d'. apply extends_refl.
Qed.

Lemma mergeInto_extends m n d :
  extends (mergeInto rec1 m n d) (mergeInto rec2 m n d).
Proof.
  unfold mergeInto. apply extends_bind; [apply Hrec |].
  intros v d'. apply extends_refl.
Qed.

Lemma merge_loop_extends n idx : forall m d,
  extends (merge_loop h rec1 n idx m d) (merge_loop h rec2 n idx m d).
Proof.
  induction idx as [| ni idx IH]; intros m d; cbn [merge_loop].
  - apply extends_refl.
  - apply extends_bind; [apply extends_refl |]. intros ndi d1.
    apply extends_bind; [apply extends_refl |]. intros [] d2.
    apply extends_bind; [apply mergeInto_extends |]. intros m' d3. apply IH.
Qed.

Lemma merge_extends m n d :
  extends (merge h rec1 m n d) (merge h rec2 m n d).
Proof.
  unfold merge. apply extends_bind; [apply extends_refl |]. intros nd d1.
  destruct (Kind nd =? AliasNode)%Z.
  { destruct (negb (Alias nd =? nil)); [| apply mergeInto_extends].
    apply extends_bind; [apply extends_refl |]. intros t d2.
    destruct (negb (Kind t =? MappingNode)%Z);
      [apply extends_refl | apply mergeInto_extends]. }
  destruct (Kind nd =? MappingNode)%Z; [apply mergeInto_extends |].
  destruct (Kind nd =? SequenceNode)%Z;
    [apply merge_loop_extends | apply extends_refl].
Qed.

Lemma mapping_loop_extends cs : forall out d,
  extends (mapping_loop h rec1 cs out d) (mapping_loop h rec2 cs out d).
Proof.
  remember (length cs) as len eqn:Hlen. revert cs Hlen.
  induction len as [len IH] using lt_wf_ind. intros cs -> out d.
  destruct cs as [| k rest]; cbn [mapping_loop]; [apply extends_refl |].
  apply extends_bind; [apply extends_refl |]. intros kd d1.
  destruct (isMerge kd).
  - destruct rest as [| v rest']; [apply extends_refl |].
    apply extends_bind; [apply merge_extends |]. intros out' d2.
    eapply (IH (length rest')); [cbn; lia | reflexivity].
  - apply extends_bind; [apply jsonifyKey_extends |]. intros key d2.
    destruct rest as [| v rest']; [apply extends_refl |].
    apply extends_bind; [apply Hrec |]. intros val d3.
    eapply (IH (length rest')); [cbn; lia | reflexivity].
Qed.

Lemma dispatch_extends n d :
  extends (dispatch Node_Decode h rec1 n d) (dispatch Node_Decode h rec2 n d).
Proof.
  unfold dispatch. apply extends_bind; [apply extends_refl |]. intros nd d1.
  destruct (Kind nd =? DocumentNode)%Z.
  { unfold document. destruct (Content nd) as [| c [| c' cs]];
      try apply extends_refl. apply Hrec. }
  destruct (Kind nd =? AliasNode)%Z.
  { unfold alias. destruct (decide (n ∈ aliases d1)); [apply extends_refl |].
    set (d2 := set_aliasDepth _ _). pose proof (Hrec (Alias nd) d2) as Ht.
    unfold extends in *.
    destruct (rec1 (Alias nd) d2) as [out d3 | e d3 |]; intros Hne.
    - now rewrite Ht by discriminate.
    - now rewrite Ht by discriminate.
    - now destruct Hne. }
  destruct (Kind nd =? ScalarNode)%Z; [apply extends_refl |].
  destruct (Kind nd =? MappingNode)%Z.
  { apply extends_bind; [apply mapping_loop_extends |].
    intros m d2. apply extends_refl. }
  destruct (Kind nd =? SequenceNode)%Z.
  { apply extends_bind; [apply sequence_loop_extends |].
    intros l d2. apply extends_refl. }
  apply extends_refl.
Qed.

End Fuel.

Lemma jsonify_fuel_S Node_Decode h fuel : forall n d,
  extends (jsonify Node_Decode h fuel n d) (jsonify Node_Decode h (S fuel) n d).
Proof.
  induction fuel as [| fuel IH]; intros n d; [now intros [] |].
  rewrite (jsonify_S _ _ (S fuel)), (jsonify_S _ _ fuel).
  destruct (excessive (count d)); [apply extends_refl |].
  now apply dispatch_extends.
Qed.

Lemma jsonify_fuel_le Node_Decode h fuel fuel' n d :
  fuel <= fuel' ->
  extends (jsonify Node_Decode h fuel n d) (jsonify Node_Decode h fuel' n d).
Proof.
  induction 1 as [| fuel' Hle IH]; [apply extends_refl |].
  intros Hne. rewrite <- (IH Hne). apply jsonify_fuel_S. now rewrite (IH Hne).
Qed.


(** ** Further properties of the walk *)

Section Outcome.
Variable Node_Decode : Node -> any * option string.
Variable h : list Node.
Variable rk : ptr -> nat.
Hypothesis Hrk : forall n nd c, load h n = Some nd -> c ∈ Content nd -> rk c < rk n.

(** X1: the conversion of any node of a node tree, from any state of the
    Decoder, comes to an end with one outcome, a return or a panic: from some
    recursion depth on, allowing more depth changes nothing. Alias cycles are
    allowed; only the [Content] pointers have to descend. *)
Theorem conversion_has_outcome n d :
  exists N o, o <> OutOfFuel /\
    forall fuel, N <= fuel -> jsonify Node_Decode h fuel n d = o.
Proof.
  destruct (jsonify_terminates Node_Decode h rk Hrk n d) as [N HN].
  exists N, (jsonify Node_Decode h N n d). split; [now apply HN |].
  intros fuel Hfuel. apply jsonify_fuel_le; [exact Hfuel | now apply HN].
Qed.

End Outcome.

(** [[&a x, *a]] converts to two strings, at depth 4 and beyond. *)
Lemma conversion_has_outcome_witness :
  let h := sample.aliased_scalar in
  let rk := fun n : ptr => 5 - n in
  let d := sample.plain (h, 1) in
  (forall n nd c, load h n = Some nd -> c ∈ Content nd -> rk c < rk n) /\
  exists N o, o <> OutOfFuel /\
    forall fuel, N <= fuel -> jsonify sample.Decode h fuel 1 d = o.
Proof.
  intros h rk d.
  assert (Hrk : forall n nd c, load h n = Some nd -> c ∈ Content nd -> rk c < rk n).
  { intros n nd c Hn Hc. subst rk. cbv beta.
    destruct n as [| [| [| [| [| n]]]]]; cbn in Hn; try discriminate Hn;
      injection Hn as <-; cbn in Hc;
      repeat (apply elem_of_cons in Hc as [-> | Hc]); try lia; inversion Hc. }
  split; [exact Hrk |].
  exact (conversion_has_outcome sample.Decode h rk Hrk 1 d).
Defined.


Lemma sequence_loop_length (rec : ptr -> M any) cs : forall out d l d',
  sequence_loop rec cs out d = Ret l d' -> length l = length out + length cs.
Proof.
  induction cs as [| c cs IH]; intros out d l d'; cbn [sequence_loop].
  - intros [= <- _]. cbn. lia.
  - unfold bind. destruct (rec c d) as [v d1 | e d1 |]; try discriminate.
    intros Hl. apply IH in Hl. rewrite length_app in Hl. cbn in *. lia.
Qed.

(** X2: what a conversion returns goes by the kind of the node. A mapping
    node gives an ordered map, a sequence node a slice with one element for
    each child, a node of kind 0 the nil value; and a node for which the
    conversion returns has one of the five kinds, or is the zero node. *)
Theorem jsonify_value_shape Node_Decode h fuel n nd d v d' :
  load h n = Some nd ->
  jsonify Node_Decode h fuel n d = Ret v d' ->
  (Kind nd = MappingNode -> exists m, v = VMapSlice m) /\
  (Kind nd = SequenceNode ->
     exists l, v = VSlice l /\ length l = length (Content nd)) /\
  (Kind nd = 0%Z -> v = VNil /\ IsZero nd = true) /\
  (Kind nd = DocumentNode \/ Kind nd = AliasNode \/ Kind nd = ScalarNode \/
   Kind nd = MappingNode \/ Kind nd = SequenceNode \/ Kind nd = 0%Z).
Proof.
  intros Hn. destruct fuel as [| fuel]; [discriminate |].
  rewrite jsonify_S. destruct (excessive (count d)); [discriminate |].
  unfold dispatch, bind, deref. rewrite Hn. cbn -[count].
  destruct (Z.eqb_spec (Kind nd) DocumentNode) as [Hk | _].
  { intros _. rewrite Hk. repeat split; try discriminate. now left. }
  destruct (Z.eqb_spec (Kind nd) AliasNode) as [Hk | _].
  { intros _. rewrite Hk. repeat split; try discriminate. now right; left. }
  destruct (Z.eqb_spec (Kind nd) ScalarNode) as [Hk | _].
  { intros _. rewrite Hk. repeat split; try discriminate. now right; right; left. }
  destruct (Z.eqb_spec (Kind nd) MappingNode) as [Hk | _].
  { destruct (mapping h _ nd (count d)) as [m d1 | e d1 |]; try discriminate.
    intros [= <- _]. rewrite Hk. repeat split; try discriminate.
    - intros _. now exists m.
    - now right; right; right; left. }
  destruct (Z.eqb_spec (Kind nd) SequenceNode) as [Hk | _].
  { destruct (sequence _ nd (count d)) as [l d1 | e d1 |] eqn:Hl; try discriminate.
    intros [= <- _]. rewrite Hk. repeat split; try discriminate.
    - intros _. exists l. split; [reflexivity |].
      now apply sequence_loop_length in Hl.
    - now right; right; right; right; left. }
  destruct (Z.eqb_spec (Kind nd) 0) as [Hk | _]; [| discriminate].
  destruct (IsZero nd) eqn:Hz; [| discriminate].
  intros [= <- _]. rewrite Hk. repeat split; try discriminate.
  now right; right; right; right; right.
Qed.

(** The sequence of [[&a x, *a]], node 2, gives a slice of two values. *)
Lemma jsonify_value_shape_witness :
  let h := sample.aliased_scalar in
  let nd := sample.sequenceNode [3; 4] in
  let d := set_doc 1 (set_decodeCount 1 (sample.plain (h, 1))) in
  let d' := set_doc 1 (set_decodeCount 5 (set_aliasCount 1 (sample.plain (h, 1)))) in
  let v := VSlice [VString "x"; VString "x"] in
  load h 2 = Some nd /\
  jsonify sample.Decode h 3 2 d = Ret v d' /\
  (Kind nd = SequenceNode ->
     exists l, v = VSlice l /\ length l = length (Content nd)).
Proof.
  intros h nd d d' v.
  assert (Hn : load h 2 = Some nd) by reflexivity.
  assert (Hrun : jsonify sample.Decode h 3 2 d = Ret v d') by reflexivity.
  split; [exact Hn |]. split; [exact Hrun |].
  exact (proj1 (proj2 (jsonify_value_shape sample.Decode h 3 2 nd d v d' Hn Hrun))).
Defined.


(** ** Mappings *)


Section Mappings.
Variable h : list Node.
Variable rec : ptr -> M any.

Lemma mapping_loop_even cs : forall out d m d',
  mapping_loop h rec cs out d = Ret m d' -> Nat.even (length cs) = true.
Proof.
  remember (length cs) as len eqn:Hlen. revert cs Hlen.
  induction len as [len IH] using lt_wf_ind. intros cs -> out d m d'.
  destruct cs as [| k [| v rest]]; cbn [mapping_loop]; [reflexivity | |].
  - unfold bind. destruct (deref h k d) as [kd d1 | |]; try discriminate.
    destruct (isMerge kd); [discriminate |].
    destruct (jsonifyKey rec k d1); discriminate.
  - unfold bind. destruct (deref h k d) as [kd d1 | |]; try discriminate.
    destruct (isMerge kd).
    + destruct (merge h rec out v d1) as [out' d2 | |]; try discriminate.
      intros Hm. eapply (IH (length rest)) in Hm; [exact Hm | cbn; lia | reflexivity].
    + destruct (jsonifyKey rec k d1) as [key d2 | |]; try discriminate.
      destruct (rec v d2) as [val d3 | |]; try discriminate.
      intros Hm. eapply (IH (length rest)) in Hm; [exact Hm | cbn; lia | reflexivity].
Qed.

(** X3: a mapping node with an odd number of children never converts: the
    loop over the pairs reads past the end of [Content], unless something
    fails before. *)
Theorem mapping_odd_never_returns nd d :
  Nat.odd (length (Content nd)) = true ->
  returned (mapping h rec nd d) = None.
Proof.
  intros Hodd. unfold mapping.
  destruct (mapping_loop h rec (Content nd) [] d) as [m d' | |] eqn:Hm;
    try reflexivity.
  apply mapping_loop_even in Hm. rewrite <- Nat.negb_odd, Hodd in Hm.
  discriminate Hm.
Qed.

Variable name : ptr -> string.



End Mappings.


(** A mapping with one child. *)
Lemma mapping_odd_never_returns_witness :
  let h := sample.lone_key in
  let nd := sample.mappingNode [2] in
  Nat.odd (length (Content nd)) = true /\
  returned (mapping h (jsonify sample.Decode h 2) nd (sample.plain (h, 1))) = None.
Proof.
  intros h nd. split; [reflexivity |].
  now apply (mapping_odd_never_returns h _ nd).
Defined.



(** ** Tags and merge keys *)

Lemma prefix_append p s : String.prefix p (String.append p s) = true.
Proof.
  induction p as [| a p IH]; simpl; [now destruct s |].
  destruct (ascii_dec a a); [exact IH | contradiction].
Qed.

Lemma prefix_split p : forall t,
  String.prefix p t = true -> exists s, t = String.append p s.
Proof.
  induction p as [| a p IH]; intros t.
  - intros _. now exists t.
  - destruct t as [| b t]; simpl; [intros H; discriminate H |].
    destruct (ascii_dec a b) as [<- |]; [| intros H; discriminate H].
    intros Hp. destruct (IH t Hp) as [s ->]. now exists s.
Qed.

Lemma substring_all s : String.substring 0 (String.length s) s = s.
Proof. induction s as [| a s IH]; simpl; [reflexivity | now rewrite IH]. Qed.

Lemma substring_append p s :
  String.substring (String.length p)
    (String.length (String.append p s) - String.length p) (String.append p s) = s.
Proof.
  induction p as [| a p IH]; simpl.
  - rewrite Nat.sub_0_r. apply substring_all.
  - exact IH.
Qed.

Lemma shortTag_helper :
  (forall s, shortTag (String.append longTagPrefix s) = String.append "!!" s) /\
  (forall tag, String.prefix longTagPrefix tag = false -> shortTag tag = tag).
Proof.
  split.
  - intros s. unfold shortTag. rewrite prefix_append.
    now rewrite (substring_append longTagPrefix s).
  - intros tag Hp. unfold shortTag. now rewrite Hp.
Qed.

(** X5: [shortTag] replaces the long prefix [tag:yaml.org,2002:] of a tag by
    [!!] and leaves every other tag as it is; applying it twice is the same
    as applying it once. *)
Theorem shortTag_spec :
  (forall s, shortTag (String.append longTagPrefix s) = String.append "!!" s) /\
  (forall tag, String.prefix longTagPrefix tag = false -> shortTag tag = tag) /\
  (forall tag, shortTag (shortTag tag) = shortTag tag).
Proof.
  destruct shortTag_helper as [Hlong Hshort].
  split; [exact Hlong |]. split; [exact Hshort |].
  intros tag. destruct (String.prefix longTagPrefix tag) eqn:Hp.
  - apply prefix_split in Hp as [s ->]. rewrite Hlong. apply Hshort. reflexivity.
  - rewrite (Hshort tag Hp). exact (Hshort tag Hp).
Qed.

(** X6: a node is a merge key exactly when it is a scalar whose value is
    [<<] and whose tag is empty, [!], [!!merge] or
    [tag:yaml.org,2002:merge]. *)
Theorem isMerge_spec (n : Node) :
  isMerge n = true <->
  Kind n = ScalarNode /\ Value n = "<<" /\
  (Tag n = "" \/ Tag n = "!" \/ Tag n = "!!merge" \/
   Tag n = "tag:yaml.org,2002:merge").
Proof.
  unfold isMerge.
  rewrite !andb_true_iff, !orb_true_iff, Z.eqb_eq, !String.eqb_eq.
  assert (Htag : shortTag (Tag n) = mergeTag <->
                 Tag n = "!!merge" \/ Tag n = "tag:yaml.org,2002:merge").
  { generalize (Tag n) as tag. intros tag.
    destruct (String.prefix longTagPrefix tag) eqn:Hp.
    - apply prefix_split in Hp as [s ->].
      rewrite (proj1 shortTag_helper s). split.
      + intros [= <-]. now right.
      + intros [H | H]; [discriminate H |].
        cbv [String.append longTagPrefix] in H. injection H as ->. reflexivity.
    - rewrite (proj2 shortTag_helper _ Hp). split; [now left |].
      intros [H | H]; [exact H |]. rewrite H in Hp. discriminate Hp. }
  rewrite Htag. tauto.
Qed.


(** ** Single merge values *)

Section MergeValue.
Variable Node_Decode : Node -> any * option string.
Variable h : list Node.

Lemma jsonify_mapping_value fuel n nd d v d' :
  load h n = Some nd -> Kind nd = MappingNode ->
  jsonify Node_Decode h fuel n d = Ret v d' ->
  exists m, v = VMapSlice m.
Proof.
  intros Hn Hk. destruct fuel as [| fuel]; [discriminate |].
  rewrite jsonify_S. destruct (excessive (count d)); [discriminate |].
  unfold dispatch, bind, deref. rewrite Hn. cbn -[count]. rewrite Hk. cbn -[count].
  destruct (mapping h _ nd (count d)) as [m d1 | e d1 |]; try discriminate.
  intros [= <- _]. now exists m.
Qed.

Lemma jsonify_alias_value fuel n nd d v d' :
  load h n = Some nd -> Kind nd = AliasNode ->
  jsonify Node_Decode h (S fuel) n d = Ret v d' ->
  exists d1 d2, jsonify Node_Decode h fuel (Alias nd) d1 = Ret v d2.
Proof.
  intros Hn Hk. rewrite jsonify_S.
  destruct (excessive (count d)); [discriminate |].
  unfold dispatch, bind, deref. rewrite Hn. cbn -[count]. rewrite Hk. cbn -[count].
  unfold alias. destruct (decide (n ∈ aliases (count d))); [discriminate |].
  set (d1 := set_aliasDepth _ _).
  destruct (jsonify Node_Decode h fuel (Alias nd) d1) as [out d2 | |] eqn:Ht;
    try discriminate.
  intros [= <- _]. now exists d1, d2.
Qed.

(** X7: [merge] on a value that is not a sequence. When the value is a
    mapping, or an alias whose target is a mapping, the only way for the
    merge to fail is for the conversion of the value to fail: what the
    conversion returns is always an ordered map, and [merge] returns it
    merged into the accumulator. When the value is an alias whose target is
    not a mapping, or a node of any other kind than alias, mapping and
    sequence, [merge] panics with [ErrNotMaps] before anything is converted:
    the Decoder is untouched. *)
Theorem merge_single_value fuel (m : order.MapSlice) v vd d :
  load h v = Some vd ->
  (Kind vd = MappingNode \/
   (Kind vd = AliasNode /\
    exists t, load h (Alias vd) = Some t /\ Kind t = MappingNode) ->
   forall val d', jsonify Node_Decode h fuel v d = Ret val d' ->
     exists src, val = VMapSlice src /\
       merge h (jsonify Node_Decode h fuel) m v d = Ret (order.Merge m src) d') /\
  ((Kind vd = AliasNode /\
    exists t, load h (Alias vd) = Some t /\ Kind t <> MappingNode) \/
   (Kind vd <> AliasNode /\ Kind vd <> MappingNode /\ Kind vd <> SequenceNode) ->
   merge h (jsonify Node_Decode h fuel) m v d = Panic ErrNotMaps d).
Proof.
  intros Hv. split.
  - intros Hkind val d' Hval.
    assert (exists src, val = VMapSlice src) as [src ->].
    { destruct Hkind as [Hk | (Hk & t & Ht & Hkt)].
      - eapply jsonify_mapping_value; eassumption.
      - destruct fuel as [| fuel']; [discriminate |].
        destruct (jsonify_alias_value _ _ _ _ _ _ Hv Hk Hval) as (d1 & d2 & Htv).
        eapply jsonify_mapping_value; eassumption. }
    exists src. split; [reflexivity |].
    assert (Hinto : mergeInto (jsonify Node_Decode h fuel) m v d
                    = Ret (order.Merge m src) d').
    { unfold mergeInto, bind. now rewrite Hval. }
    unfold merge, bind, deref. rewrite Hv. cbn.
    destruct Hkind as [Hk | (Hk & t & Ht & Hkt)]; rewrite Hk; cbn.
    + exact Hinto.
    + destruct (Alias vd) as [| a] eqn:Ha; [discriminate Ht |]. cbn.
      change (load h (S a)) with (h !! a) in Ht. unfold ptr in *.
      rewrite Ht. cbn. rewrite Hkt. cbn. exact Hinto.
  - intros Hkind. unfold merge, bind, deref. rewrite Hv. cbn.
    destruct Hkind as [(Hk & t & Ht & Hkt) | (Hka & Hkm & Hks)].
    + rewrite Hk. cbn.
      destruct (Alias vd) as [| a] eqn:Ha; [discriminate Ht |]. cbn.
      change (load h (S a)) with (h !! a) in Ht. unfold ptr in *.
      rewrite Ht. cbn.
      destruct (Z.eqb_spec (Kind t) MappingNode); [contradiction | reflexivity].
    + destruct (Z.eqb_spec (Kind vd) AliasNode); [contradiction |].
      destruct (Z.eqb_spec (Kind vd) MappingNode); [contradiction |].
      destruct (Z.eqb_spec (Kind vd) SequenceNode); [contradiction |].
      reflexivity.
Qed.

End MergeValue.

(** The merge value of [{base: &b {a: 1, z: 9}, derived: {a: 0, <<: *b,
    c: 2}}], the alias (node 14), is an alias to a mapping. *)
Lemma merge_single_value_witness :
  let h := sample.merge_alias in
  let vd := sample.aliasNode "b" 4 in
  let m := [("a", VInt 0)] in
  let d := sample.plain (h, 1) in
  let d' := set_decodeCount 6 (set_aliasCount 5 d) in
  let val := VMapSlice [("a", VInt 1); ("z", VInt 9)] in
  load h 14 = Some vd /\
  (Kind vd = AliasNode /\
   exists t, load h (Alias vd) = Some t /\ Kind t = MappingNode) /\
  jsonify sample.Decode h 4 14 d = Ret val d' /\
  exists src, val = VMapSlice src /\
    merge h (jsonify sample.Decode h 4) m 14 d = Ret (order.Merge m src) d'.
Proof.
  intros h vd m d d' val.
  assert (Hv : load h 14 = Some vd) by reflexivity.
  assert (Hk : Kind vd = AliasNode /\
               exists t, load h (Alias vd) = Some t /\ Kind t = MappingNode).
  { split; [reflexivity |]. eexists. split; reflexivity. }
  assert (Hrun : jsonify sample.Decode h 4 14 d = Ret val d') by reflexivity.
  split; [exact Hv |]. split; [exact Hk |]. split; [exact Hrun |].
  exact (proj1 (merge_single_value sample.Decode h 4 m 14 vd d Hv)
           (or_intror Hk) val d' Hrun).
Defined.


(** ** Sequences *)

Section Sequences.
Variable rec : ptr -> M any.
Variable val : ptr -> any.



End Sequences.


(** ** Ill-formed nodes *)

Section IllFormed.
Variable Node_Decode : Node -> any * option string.
Variable h : list Node.

Lemma jsonify_nil_noret fuel n d :
  load h n = None -> returned (jsonify Node_Decode h fuel n d) = None.
Proof.
  intros Hn. destruct fuel as [| fuel]; [reflexivity |].
  rewrite jsonify_S. destruct (excessive (count d)); [reflexivity |].
  unfold dispatch, bind, deref. now rewrite Hn.
Qed.

(** X9: ill-formed input is never converted. The conversion does not return
    for a nil pointer, for a document node that has not exactly one child,
    for an alias node whose target is nil, or for a node whose kind is none
    of the five kinds and which is not the zero node. *)
Theorem ill_formed_never_returns fuel n d :
  (load h n = None \/
   exists nd, load h n = Some nd /\
     ((Kind nd = DocumentNode /\ length (Content nd) <> 1) \/
      (Kind nd = AliasNode /\ load h (Alias nd) = None) \/
      (Kind nd <> DocumentNode /\ Kind nd <> AliasNode /\ Kind nd <> ScalarNode /\
       Kind nd <> MappingNode /\ Kind nd <> SequenceNode /\
       (Kind nd <> 0%Z \/ IsZero nd = false)))) ->
  returned (jsonify Node_Decode h fuel n d) = None.
Proof.
  intros [Hn | (nd & Hn & Hbad)]; [now apply jsonify_nil_noret |].
  destruct fuel as [| fuel]; [reflexivity |].
  rewrite jsonify_S. destruct (excessive (count d)); [reflexivity |].
  unfold dispatch, bind, deref. rewrite Hn. cbn -[count].
  destruct Hbad as [[Hk Hlen] | [[Hk Ht] | (H1 & H2 & H3 & H4 & H5 & H0)]].
  - rewrite Hk. cbn -[count]. unfold document.
    destruct (Content nd) as [| c [| c' cs]]; try reflexivity. now destruct Hlen.
  - rewrite Hk. cbn -[count]. unfold alias.
    destruct (decide (n ∈ aliases (count d))); [reflexivity |].
    set (d1 := set_aliasDepth _ _).
    pose proof (jsonify_nil_noret fuel (Alias nd) d1 Ht) as Hnil.
    now destruct (jsonify Node_Decode h fuel (Alias nd) d1).
  - destruct (Z.eqb_spec (Kind nd) DocumentNode); [contradiction |].
    destruct (Z.eqb_spec (Kind nd) AliasNode); [contradiction |].
    destruct (Z.eqb_spec (Kind nd) ScalarNode); [contradiction |].
    destruct (Z.eqb_spec (Kind nd) MappingNode); [contradiction |].
    destruct (Z.eqb_spec (Kind nd) SequenceNode); [contradiction |].
    destruct (Z.eqb_spec (Kind nd) 0) as [Hz |]; [| reflexivity].
    destruct H0 as [H0 | H0]; [contradiction | now rewrite H0].
Qed.

End IllFormed.

(** A document node without a child. *)
Lemma ill_formed_never_returns_witness :
  let h := [sample.node DocumentNode "" "" nil []] in
  (load h 1 = None \/
   exists nd, load h 1 = Some nd /\
     ((Kind nd = DocumentNode /\ length (Content nd) <> 1) \/
      (Kind nd = AliasNode /\ load h (Alias nd) = None) \/
      (Kind nd <> DocumentNode /\ Kind nd <> AliasNode /\ Kind nd <> ScalarNode /\
       Kind nd <> MappingNode /\ Kind nd <> SequenceNode /\
       (Kind nd <> 0%Z \/ IsZero nd = false)))) /\
  returned (jsonify sample.Decode h 3 1 (sample.plain (h, 1))) = None.
Proof.
  intros h.
  assert (Hbad : load h 1 = None \/
   exists nd, load h 1 = Some nd /\
     ((Kind nd = DocumentNode /\ length (Content nd) <> 1) \/
      (Kind nd = AliasNode /\ load h (Alias nd) = None) \/
      (Kind nd <> DocumentNode /\ Kind nd <> AliasNode /\ Kind nd <> ScalarNode /\
       Kind nd <> MappingNode /\ Kind nd <> SequenceNode /\
       (Kind nd <> 0%Z \/ IsZero nd = false)))).
  { right. eexists. split; [reflexivity |]. left. split; [reflexivity |].
    cbn. discriminate. }
  split; [exact Hbad |].
  exact (ill_formed_never_returns sample.Decode h 3 1 _ Hbad).
Defined.


(** ** The alias counter *)

Section InvariantByKind.
Variable Node_Decode : Node -> any * option string.
Variable h : list Node.
Variable I : Decoder -> Prop.
Variable E : error -> Decoder -> Prop.
Variable rec : ptr -> M any.

Hypothesis Hrec : forall c d, I d ->
  post (rec c d) (fun _ d' => I d') E True.
Hypothesis HE : forall e d, I d -> E e d.
Hypothesis Hdoc : forall n d, I d -> I (set_doc n d).

(** As [dispatch_post], with the alias case asked for alias nodes only. *)
Lemma dispatch_post_by_kind n d :
  (forall nd, load h n = Some nd -> Kind nd = AliasNode ->
     post (alias rec n nd d) (fun _ d' => I d') E True) ->
  I d ->
  post (dispatch Node_Decode h rec n d) (fun _ d' => I d') E True.
Proof.
  intros Halias Hd.
  assert (Hrec' : forall c, True -> forall d, I d ->
            post (rec c d) (fun v d' => True /\ I d') E True).
  { intros c _ d0 Hd0. eapply post_mono; [now apply Hrec | | auto..].
    intros v d' Hd'. now split. }
  assert (Hmap : forall m : order.MapSlice,
            Forall (fun item => (fun _ : any => True) (snd item)) m <-> True).
  { intros m. split; [reflexivity |]. intros _. apply Forall_forall. reflexivity. }
  unfold dispatch. apply post_bind. unfold deref.
  destruct (load h n) as [nd |] eqn:Hn; cbn; [| now apply HE].
  destruct (Z.eqb_spec (Kind nd) DocumentNode) as [_ | _].
  { eapply post_mono;
      [eapply (document_post I (fun _ => True) E True (fun _ => True) rec Hrec' HE Hdoc);
       [intros; exact Logic.I | exact Hd] | | auto..].
    intros v d' [_ Hd']. exact Hd'. }
  destruct (Z.eqb_spec (Kind nd) AliasNode) as [Hk | _]; [now apply Halias |].
  destruct (Z.eqb_spec (Kind nd) ScalarNode) as [_ | _].
  { eapply post_mono; [apply scalar_state | | | tauto].
    - intros v d' ->. exact Hd.
    - intros e d' ->. now apply HE. }
  destruct (Z.eqb_spec (Kind nd) MappingNode) as [_ | _].
  { apply post_bind. eapply post_mono;
      [eapply (mapping_loop_post h I (fun _ => True) E True (fun _ => True) rec
                 Hrec' HE Hmap);
       [intros; exact Logic.I | constructor | exact Hd] | | auto..].
    intros m d' [_ Hd']. exact Hd'. }
  destruct (Z.eqb_spec (Kind nd) SequenceNode) as [_ | _].
  { apply post_bind. eapply post_mono;
      [eapply (sequence_loop_post I (fun _ => True) E True (fun _ => True) rec Hrec');
       [intros; exact Logic.I | constructor | exact Hd] | | auto..].
    intros l d' [_ Hd']. exact Hd'. }
  destruct ((Kind nd =? 0)%Z && IsZero nd); cbn; auto.
Qed.

End InvariantByKind.


Lemma wrap64_mod z : (wrap64 z mod 2 ^ 64 = z mod 2 ^ 64)%Z.
Proof.
  unfold wrap64.
  rewrite Zdiv.Zminus_mod, Z.mod_mod by lia.
  rewrite <- Zdiv.Zminus_mod.
  f_equal. lia.
Qed.

Lemma wrap64_eq a b : (a mod 2 ^ 64 = b mod 2 ^ 64)%Z -> wrap64 a = wrap64 b.
Proof.
  intros Hab. unfold wrap64.
  rewrite (Zdiv.Zplus_mod a), (Zdiv.Zplus_mod b), Hab. reflexivity.
Qed.

Lemma wrap64_sub_succ a b :
  wrap64 (wrap64 (a + 1) - wrap64 (b + 1)) = wrap64 (a - b).
Proof.
  apply wrap64_eq.
  rewrite Zdiv.Zminus_mod, !wrap64_mod, <- Zdiv.Zminus_mod.
  f_equal. lia.
Qed.

Section Counters.
Variable Node_Decode : Node -> any * option string.
Variable h : list Node.

(** X10: outside alias expansions the alias counter stands still. In a tree
    without alias nodes, a conversion entered at alias depth 0 ends, by a
    return or by a panic, with the alias counter, the alias depth and the
    in-progress set as it found them. *)
Theorem alias_free_counters fuel : forall n d,
  (forall a nd, load h a = Some nd -> Kind nd <> AliasNode) ->
  aliasDepth d = 0%Z ->
  post (jsonify Node_Decode h fuel n d)
    (fun _ d' => aliasCount d' = aliasCount d /\ aliasDepth d' = 0%Z /\
                 aliases d' = aliases d)
    (fun _ d' => aliasCount d' = aliasCount d /\ aliasDepth d' = 0%Z /\
                 aliases d' = aliases d)
    True.
Proof.
  induction fuel as [| fuel IH]; intros n d Hfree Hdepth; [exact Logic.I |].
  rewrite jsonify_S.
  assert (Hcount : aliasCount (count d) = aliasCount d /\
                   aliasDepth (count d) = 0%Z /\ aliases (count d) = aliases d).
  { rewrite count_aliasCount, count_aliasDepth, count_aliases, Hdepth. auto. }
  destruct (excessive (count d)); [exact Hcount |].
  pose (I := fun d' => aliasCount d' = aliasCount d /\ aliasDepth d' = 0%Z /\
                       aliases d' = aliases d).
  apply (dispatch_post_by_kind Node_Decode h I (fun _ => I)
           (jsonify Node_Decode h fuel)).
  - intros c d0 (Hc & Hd0 & Ha0).
    eapply post_mono; [apply (IH c d0 Hfree Hd0) | | | auto].
    + intros v d' (Hc' & Hd' & Ha'). repeat split; congruence.
    + intros e d' (Hc' & Hd' & Ha'). repeat split; congruence.
  - auto.
  - intros p d0 Hd0. exact Hd0.
  - intros nd Hn Hk. now destruct (Hfree n nd Hn).
  - exact Hcount.
Qed.

(** X11: inside an alias expansion every node visited counts as
    alias-driven. A conversion entered at an alias depth above zero (and low
    enough for the nesting not to overflow it) advances the two counters
    together: the difference between the alias counter and the total counter
    is, as a 64-bit integer, the same at the end as at the start, whether
    the conversion returns or panics. *)
Theorem alias_driven_counters fuel : forall n d,
  (0 < aliasDepth d)%Z ->
  (aliasDepth d + Z.of_nat fuel < 2 ^ 63)%Z ->
  post (jsonify Node_Decode h fuel n d)
    (fun _ d' => wrap64 (aliasCount d' - decodeCount d')
                 = wrap64 (aliasCount d - decodeCount d) /\
                 aliasDepth d' = aliasDepth d)
    (fun _ d' => wrap64 (aliasCount d' - decodeCount d')
                 = wrap64 (aliasCount d - decodeCount d))
    True.
Proof.
  induction fuel as [| fuel IH]; intros n d Hpos Hbound; [exact Logic.I |].
  rewrite jsonify_S.
  assert (Hgap : wrap64 (aliasCount (count d) - decodeCount (count d))
                 = wrap64 (aliasCount d - decodeCount d)).
  { rewrite count_aliasCount, count_decodeCount.
    destruct (Z.gtb_spec (aliasDepth d) 0); [| lia].
    rewrite wrap64_sub_succ. reflexivity. }
  destruct (excessive (count d)); [exact Hgap |].
  pose (I := fun d' => wrap64 (aliasCount d' - decodeCount d')
                       = wrap64 (aliasCount d - decodeCount d) /\
                       aliasDepth d' = aliasDepth d).
  pose (E := fun (_ : error) d' => wrap64 (aliasCount d' - decodeCount d')
                                   = wrap64 (aliasCount d - decodeCount d)).
  apply (dispatch_post_by_kind Node_Decode h I E (jsonify Node_Decode h fuel)).
  - intros c d0 [Hg0 Hd0].
    eapply post_mono; [apply (IH c d0) | | | auto]; try lia.
    + intros v d' [Hg' Hd']. split; congruence.
    + intros e d' Hg'. unfold E. congruence.
  - intros e d0 [Hg0 _]. exact Hg0.
  - intros p d0 Hd0. exact Hd0.
  - intros nd Hn Hk. unfold alias.
    destruct (decide (n ∈ aliases (count d))); [exact Hgap |].
    remember (set_aliasDepth _ _) as d2 eqn:Ed2.
    assert (Hd2 : aliasDepth d2 = (aliasDepth d + 1)%Z).
    { rewrite Ed2. cbn -[count]. rewrite count_aliasDepth.
      apply wrap64_id. unfold in_int64. lia. }
    assert (Hg2 : wrap64 (aliasCount d2 - decodeCount d2)
                  = wrap64 (aliasCount d - decodeCount d))
      by (rewrite Ed2; exact Hgap).
    clear Ed2.
    pose proof (IH (Alias nd) d2 ltac:(lia) ltac:(lia)) as Ht.
    destruct (jsonify Node_Decode h fuel (Alias nd) d2) as [out d3 | e d3 |];
      cbn in Ht |- *; [| unfold E; congruence | exact Logic.I].
    destruct Ht as [Hg3 Hd3]. split; [cbn; congruence |].
    cbn. rewrite Hd3, Hd2. replace (aliasDepth d + 1 - 1)%Z with (aliasDepth d) by lia.
    apply wrap64_id. unfold in_int64. lia.
  - split; [exact Hgap | apply count_aliasDepth].
Qed.

End Counters.


Lemma alias_free_counters_witness :
  let h := sample.two_keys in
  let d := sample.plain (h, 1) in
  (forall a nd, load h a = Some nd -> Kind nd <> AliasNode) /\
  aliasDepth d = 0%Z /\
  post (jsonify sample.Decode h 4 1 d)
    (fun _ d' => aliasCount d' = aliasCount d /\ aliasDepth d' = 0%Z /\
                 aliases d' = aliases d)
    (fun _ d' => aliasCount d' = aliasCount d /\ aliasDepth d' = 0%Z /\
                 aliases d' = aliases d)
    True.
Proof.
  intros h d.
  assert (Hfree : forall a nd, load h a = Some nd -> Kind nd <> AliasNode).
  { intros a nd Ha.
    do 7 (destruct a as [| a]; [cbn in Ha; inversion Ha; discriminate |]).
    cbn in Ha. discriminate Ha. }
  split; [exact Hfree |]. split; [reflexivity |].
  exact (alias_free_counters sample.Decode h 4 1 d Hfree eq_refl).
Defined.

Lemma alias_driven_counters_witness :
  let h := sample.aliased_scalar in
  let d := set_aliasDepth 1 (sample.plain (h, 1)) in
  (0 < aliasDepth d)%Z /\
  (aliasDepth d + Z.of_nat 3 < 2 ^ 63)%Z /\
  post (jsonify sample.Decode h 3 2 d)
    (fun _ d' => wrap64 (aliasCount d' - decodeCount d')
                 = wrap64 (aliasCount d - decodeCount d) /\
                 aliasDepth d' = aliasDepth d)
    (fun _ d' => wrap64 (aliasCount d' - decodeCount d')
                 = wrap64 (aliasCount d - decodeCount d))
    True.
Proof.
  intros h d.
  assert (Hpos : (0 < aliasDepth d)%Z) by (cbn; lia).
  assert (Hbound : (aliasDepth d + Z.of_nat 3 < 2 ^ 63)%Z) by (cbn; lia).
  split; [exact Hpos |]. split; [exact Hbound |].
  exact (alias_driven_counters sample.Decode h 3 2 d Hpos Hbound).
Defined.

End yaml_facts.
